(** * Particle simulation: spatial index and position-based solver

    A shallow embedding of [scripts/quad_tree.py] and
    [scripts/collision_sys.py].

    Numbers.  The Python code computes on [float]s (and on [int]s that are
    promoted to [float]s).  Coordinates, radii and time steps are modelled as
    real numbers [R]: every arithmetic step of the source is an exact field
    operation here, and [np.sqrt] is the real square root.  Nothing rounds
    and nothing overflows: there is no infinity and no NaN.  What is proved
    of sums, differences and comparisons of coordinates is proved of real
    arithmetic, not of binary64, where each step rounds.  A [pygame.Rect]
    holds C integers, and pygame cuts the coordinates of a point to C
    integers, towards zero, before it tests them; both are modelled in [Z],
    which agrees with the code below 2^31.

    Objects.  A [Particle] object is shared between the solver's list and the
    nodes of the tree.  Its identity is a reference ([ref]), its current
    state is read from a [heap]; the tree and the solver's list hold
    references.  A method that changes its object is a function from the
    old state to the new one.

    Scope.  The model covers [Particle], [QuadTree] and [CollisionSystem];
    the random draws of [create_particle] are arguments.  Windows, input,
    drawing and the [main] loops are left out, and so is
    [Particle.slow_down], whose [+=] on a tuple makes [last_pos] grow beyond a
    pair.  The comparisons and the integer parts of reals do not compute,
    so the runs on concrete inputs below are derived step by step, in the
    order in which the code runs. *)

From Stdlib Require Import ZArith List Bool Lia Reals Lra Psatz.
Import ListNotations.

Set Implicit Arguments.

(** ** Comparisons of reals as booleans *)

Definition Rltb (a b : R) : bool := if Rlt_dec a b then true else false.
Definition Rgtb (a b : R) : bool := Rltb b a.

(** ** pygame.Rect *)

(** [pygame.Rect(x, y, width, height)]: integer fields. *)
Record Rect : Type := mkRect {
  rect_x : Z;
  rect_y : Z;
  rect_w : Z;
  rect_h : Z
}.

(** Python's [int(v)] of a float, and the conversion of a float to a C
    [int] that pygame applies to the coordinates of a point: the integer
    part, towards zero. *)
Definition py_int (v : R) : Z :=
  if Rle_dec 0 v then Int_part v else (- Int_part (- v))%Z.

(** [Rect.collidepoint(px, py)]: pygame converts the two coordinates to C
    integers, which cuts a float towards zero, and tests the integers; the
    test includes the left and top edges and excludes the right and bottom
    ones. *)
Definition collidepoint (r : Rect) (px py : R) : bool :=
  let px := py_int px in
  let py := py_int py in
  ((rect_x r <=? px) && (px <? rect_x r + rect_w r) &&
   (rect_y r <=? py) && (py <? rect_y r + rect_h r))%Z.

(** [Rect.colliderect(other)]: pygame's overlap test.  Rectangles of zero
    width or height collide with nothing; negative sizes are read through
    min and max. *)
Definition colliderect (a b : Rect) : bool :=
  if ((rect_w a =? 0) || (rect_h a =? 0) || (rect_w b =? 0) || (rect_h b =? 0))%Z
  then false
  else
    ((Z.min (rect_x a) (rect_x a + rect_w a) <? Z.max (rect_x b) (rect_x b + rect_w b)) &&
     (Z.min (rect_y a) (rect_y a + rect_h a) <? Z.max (rect_y b) (rect_y b + rect_h b)) &&
     (Z.min (rect_x b) (rect_x b + rect_w b) <? Z.max (rect_x a) (rect_x a + rect_w a)) &&
     (Z.min (rect_y b) (rect_y b + rect_h b) <? Z.max (rect_y a) (rect_y a + rect_h a)))%Z.

(** ** Particle *)

Local Open Scope R_scope.

Record Particle : Type := mkParticle {
  x : R;
  y : R;
  radius : R;
  color : Z * Z * Z;
  last_pos : R * R;
  accel : R * R;
  mass : R
}.

(** [Particle.__init__(x, y, color=(255, 255, 255))] *)
Definition Particle_init (x0 y0 : R) (c : Z * Z * Z) : Particle :=
  {| x := x0; y := y0; radius := 3; color := c;
     last_pos := (x0, y0); accel := (0, 0); mass := 1 |}.

(** Assignments to one attribute. *)
Definition set_x (p : Particle) (v : R) : Particle :=
  {| x := v; y := y p; radius := radius p; color := color p;
     last_pos := last_pos p; accel := accel p; mass := mass p |}.
Definition set_y (p : Particle) (v : R) : Particle :=
  {| x := x p; y := v; radius := radius p; color := color p;
     last_pos := last_pos p; accel := accel p; mass := mass p |}.
Definition set_last_pos (p : Particle) (v : R * R) : Particle :=
  {| x := x p; y := y p; radius := radius p; color := color p;
     last_pos := v; accel := accel p; mass := mass p |}.
Definition set_accel (p : Particle) (v : R * R) : Particle :=
  {| x := x p; y := y p; radius := radius p; color := color p;
     last_pos := last_pos p; accel := v; mass := mass p |}.

(** [setVelocity(vx, vy, dt=1)] *)
Definition setVelocity (p : Particle) (vx vy dt : R) : Particle :=
  set_last_pos p (x p - vx * dt, y p - vy * dt).

(** [addVelocity(vx, vy, dt=1)] *)
Definition addVelocity (p : Particle) (vx vy dt : R) : Particle :=
  set_last_pos p (fst (last_pos p) - vx * dt, snd (last_pos p) - vy * dt).

(** [getVelocity()] *)
Definition getVelocity (p : Particle) : R * R :=
  (x p - fst (last_pos p), y p - snd (last_pos p)).

(** [accelerate(ax, ay)] *)
Definition accelerate (p : Particle) (ax ay : R) : Particle :=
  set_accel p (fst (accel p) + ax, snd (accel p) + ay).

Definition VELOCITY_DAMPENING : R := 0.5.

(** [update(dt=1)] *)
Definition update (p : Particle) (dt : R) : Particle :=
  let last_up_move := (x p - fst (last_pos p), y p - snd (last_pos p)) in
  let new_pos :=
    (x p + fst last_up_move
       + (fst (accel p) - fst last_up_move * VELOCITY_DAMPENING) * (dt * dt),
     y p + snd last_up_move
       + (snd (accel p) - snd last_up_move * VELOCITY_DAMPENING) * (dt * dt)) in
  let p1 := set_last_pos p (x p, y p) in
  let p2 := set_x p1 (fst new_pos) in
  let p3 := set_y p2 (snd new_pos) in
  set_accel p3 (0, 0).



(** ** The heap of particle objects *)

Definition ref : Type := nat.
Definition heap : Type := ref -> Particle.

Definition upd (h : heap) (r : ref) (p : Particle) : heap :=
  fun r' => if Nat.eqb r' r then p else h r'.

(** ** QuadTree *)

(** A node of the tree.  [Leaf] is a node with [divided = False]; [Quad] is
    a node with [divided = True] and its four children. *)
Inductive QuadTree : Type :=
| Leaf (boundary : Rect) (particles : list ref) (capacity : Z)
| Quad (boundary : Rect) (particles : list ref) (capacity : Z)
       (northeast northwest southeast southwest : QuadTree).

(** [QuadTree(boundary, capacity)] *)
Definition QuadTree_init (b : Rect) (cap : Z) : QuadTree := Leaf b [] cap.

Definition boundary (t : QuadTree) : Rect :=
  match t with Leaf b _ _ => b | Quad b _ _ _ _ _ _ => b end.

Definition particles (t : QuadTree) : list ref :=
  match t with Leaf _ ps _ => ps | Quad _ ps _ _ _ _ _ => ps end.

Definition capacity (t : QuadTree) : Z :=
  match t with Leaf _ _ c => c | Quad _ _ c _ _ _ _ => c end.

Definition divided (t : QuadTree) : bool :=
  match t with Leaf _ _ _ => false | Quad _ _ _ _ _ _ _ => true end.

(** The four children, in the order the source visits them:
    northeast, northwest, southeast, southwest. *)
Definition children : Type := (QuadTree * QuadTree * QuadTree * QuadTree)%type.

(** [subdivide()]: the four rectangles it builds. *)
Definition subdivide_rects (b : Rect) : Rect * Rect * Rect * Rect :=
  let x := rect_x b in
  let y := rect_y b in
  let w := rect_w b in
  let h := rect_h b in
  let hw := (w / 2)%Z in
  let hh := (h / 2)%Z in
  (mkRect (x + hw) y hw hh,
   mkRect x y hw hh,
   mkRect (x + hw) (y + hh) hw hh,
   mkRect x (y + hh) hw hh).

(** [subdivide()]: the four fresh children. *)
Definition subdivide (b : Rect) (cap : Z) : children :=
  let '(ne, nw, se, sw) := subdivide_rects b in
  (QuadTree_init ne cap, QuadTree_init nw cap,
   QuadTree_init se cap, QuadTree_init sw cap).

(** Results of code that may run out of fuel. *)
Definition bind {A B : Type} (m : option A) (f : A -> option B) : option B :=
  match m with Some a => f a | None => None end.

Notation "' p <- m ;; k" := (bind m (fun p => k))
  (at level 61, p pattern, m at next level, right associativity).

Section InsertBody.

(** [ins] stands for the recursive call [child.insert(particle)]: it gives
    the returned boolean and the child as the call leaves it. *)
Variable ins : QuadTree -> ref -> option (bool * QuadTree).

(** [ne.insert(p) or nw.insert(p) or se.insert(p) or sw.insert(p)]:
    Python's [or] stops at the first call that returns [True]. *)
Definition insert_children (k : children) (p : ref) : option (bool * children) :=
  let '(ne, nw, se, sw) := k in
  '(b1, ne') <- ins ne p ;;
  if b1 then Some (true, (ne', nw, se, sw)) else
  '(b2, nw') <- ins nw p ;;
  if b2 then Some (true, (ne', nw', se, sw)) else
  '(b3, se') <- ins se p ;;
  if b3 then Some (true, (ne', nw', se', sw)) else
  '(b4, sw') <- ins sw p ;;
  Some (b4, (ne', nw', se', sw')).

(** The loop [for p in existing] of [insert]: [kept] is [self.particles]
    as the loop rebuilds it. *)
Fixpoint redistribute (existing : list ref) (k : children) (kept : list ref)
  : option (children * list ref) :=
  match existing with
  | [] => Some (k, kept)
  | p :: rest =>
      '(inserted, k') <- insert_children k p ;;
      redistribute rest k' (if inserted then kept else kept ++ [p])
  end.

End InsertBody.

(** [insert(particle)]: the returned boolean and the node as the call leaves
    it.  The recursion of the source is on nodes it has just created, so the
    model counts the depth of calls down with [fuel]; [None] means the fuel
    ran out. *)
Fixpoint insert_fuel (fuel : nat) (h : heap) (self : QuadTree) (particle : ref)
  : option (bool * QuadTree) :=
  match fuel with
  | O => None
  | S fuel' =>
      if negb (collidepoint (boundary self) (x (h particle)) (y (h particle)))
      then Some (false, self)
      else
        match self with
        | Leaf b ps cap =>
            if (Z.of_nat (length ps) <? cap)%Z
            then Some (true, Leaf b (ps ++ [particle]) cap)
            else
              '(k, kept) <- redistribute (insert_fuel fuel' h) ps (subdivide b cap) [] ;;
              '(res, (ne, nw, se, sw)) <- insert_children (insert_fuel fuel' h) k particle ;;
              Some (res, Quad b kept cap ne nw se sw)
        | Quad b ps cap ne nw se sw =>
            '(res, (ne', nw', se', sw')) <-
               insert_children (insert_fuel fuel' h) (ne, nw, se, sw) particle ;;
            Some (res, Quad b ps cap ne' nw' se' sw')
        end
  end.

(** [query(range, found)]: the list [found] as the call leaves it. *)
Fixpoint query_acc (h : heap) (self : QuadTree) (range : Rect) (found : list ref)
  : list ref :=
  if negb (colliderect (boundary self) range) then found
  else
    let found1 :=
      fold_left
        (fun acc p => if collidepoint range (x (h p)) (y (h p)) then acc ++ [p] else acc)
        (particles self) found in
    match self with
    | Leaf _ _ _ => found1
    | Quad _ _ _ ne nw se sw =>
        query_acc h sw range (query_acc h se range (query_acc h nw range (query_acc h ne range found1)))
    end.

(** What [query] returns: nothing ([None]) when the node's boundary misses
    the range, and otherwise the list [found] itself. *)
Definition query (h : heap) (self : QuadTree) (range : Rect) (found : list ref)
  : option (list ref) :=
  if negb (colliderect (boundary self) range) then None
  else Some (query_acc h self range found).

(** A bound on the depth of the calls of [insert] on a node: a leaf that
    holds a point is at least one unit wide, and a child is half as wide. *)
Fixpoint depth_bound (t : QuadTree) : nat :=
  match t with
  | Leaf b _ _ => S (Z.to_nat (rect_w b))
  | Quad _ _ _ ne nw se sw =>
      S (Nat.max (Nat.max (depth_bound ne) (depth_bound nw))
                 (Nat.max (depth_bound se) (depth_bound sw)))
  end.

(** [insert(particle)], with the fuel that [depth_bound] gives; that fuel
    never runs out ([insert_as_fuel] below). *)
Definition insert (h : heap) (self : QuadTree) (particle : ref) : bool * QuadTree :=
  match insert_fuel (depth_bound self) h self particle with
  | Some r => r
  | None => (false, self)
  end.

(** ** CollisionSystem *)

Record CollisionSystem : Type := mkCollisionSystem {
  cs_quad_tree : option QuadTree;
  cs_particles : list ref;
  cs_gravity : R;
  cs_iterations : Z;
  cs_width : Z;
  cs_height : Z
}.

Definition WIDTH : Z := 800.
Definition HEIGHT : Z := 600.

(** [CollisionSystem.__init__(width=WIDTH, height=HEIGHT)] *)
Definition CollisionSystem_init (width height : Z) : CollisionSystem :=
  {| cs_quad_tree := None; cs_particles := []; cs_gravity := 200.0 * 10;
     cs_iterations := 5; cs_width := width; cs_height := height |}.

(** [set_up_quad_tree()]: the tree it builds; the booleans that [insert]
    returns are dropped, as in the source. *)
Definition build_quad_tree (h : heap) (width height : Z) (ps : list ref) : QuadTree :=
  fold_left (fun t p => snd (insert h t p)) ps
            (QuadTree_init (mkRect 0 0 width height) 5).

Definition set_up_quad_tree (h : heap) (cs : CollisionSystem) : CollisionSystem :=
  {| cs_quad_tree := Some (build_quad_tree h (cs_width cs) (cs_height cs) (cs_particles cs));
     cs_particles := cs_particles cs; cs_gravity := cs_gravity cs;
     cs_iterations := cs_iterations cs; cs_width := cs_width cs;
     cs_height := cs_height cs |}.

(** [add_particle(particle)] *)
Definition add_particle (h : heap) (cs : CollisionSystem) (particle : ref) : CollisionSystem :=
  {| cs_quad_tree :=
       match cs_quad_tree cs with
       | Some t => Some (snd (insert h t particle))
       | None => None
       end;
     cs_particles := cs_particles cs ++ [particle]; cs_gravity := cs_gravity cs;
     cs_iterations := cs_iterations cs; cs_width := cs_width cs;
     cs_height := cs_height cs |}.

Definition restitution : R := 0.8.

(** The body of the loop of [wall_collisions()], for one particle. *)
Definition wall_collide (width height : Z) (particle : Particle) : Particle :=
  (* Left/Right walls *)
  let particle :=
    if Rltb (x particle - radius particle) 0 then
      let particle := set_x particle (radius particle) in
      let '(vx, vy) := getVelocity particle in
      setVelocity particle (- vx * restitution) vy 1.0
    else if Rgtb (x particle + radius particle) (IZR width) then
      let particle := set_x particle (IZR width - radius particle) in
      let '(vx, vy) := getVelocity particle in
      setVelocity particle (- vx * restitution) vy 1.0
    else particle in
  (* Bottom/Top walls *)
  if Rltb (y particle - radius particle) 0 then
    let particle := set_y particle (radius particle) in
    let '(vx, vy) := getVelocity particle in
    setVelocity particle vx (- vy * restitution) 1.0
  else if Rgtb (y particle + radius particle) (IZR height) then
    let particle := set_y particle (IZR height - radius particle) in
    let '(vx, vy) := getVelocity particle in
    setVelocity particle vx (- vy * restitution) 1.0
  else particle.

(** A loop [for particle in self.particles] that changes each particle in
    place. *)
Definition for_particles (f : Particle -> Particle) (ps : list ref) (h : heap) : heap :=
  fold_left (fun h r => upd h r (f (h r))) ps h.

(** [wall_collisions()] *)
Definition wall_collisions (cs : CollisionSystem) (h : heap) : heap :=
  for_particles (wall_collide (cs_width cs) (cs_height cs)) (cs_particles cs) h.

(** [update_particles(dt)] *)
Definition update_particles (cs : CollisionSystem) (dt : R) (h : heap) : heap :=
  for_particles (fun particle => update particle dt) (cs_particles cs) h.

(** [apply_gravity(dt)] *)
Definition apply_gravity (cs : CollisionSystem) (dt : R) (h : heap) : heap :=
  for_particles (fun particle => accelerate particle 0 (cs_gravity cs * dt))
                (cs_particles cs) h.

Definition eps : R := 1e-6.

(** [resolveCollision(p1, p2)]: the two particles as the call leaves them. *)
Definition resolveCollision (p1 p2 : Particle) : Particle * Particle :=
  let resp_coefficient := 1.0 in
  let dx := x p2 - x p1 in
  let dy := y p2 - y p1 in
  let dist2 := dx * dx + dy * dy in
  let min_dist := radius p1 + radius p2 in
  let min_dist2 := min_dist * min_dist in
  if Rltb dist2 min_dist2 && Rgtb dist2 eps then
    let dist := sqrt dist2 in
    let overlap := min_dist - dist in
    let delta := resp_coefficient * 0.5 * overlap in
    let nx := dx / dist in
    let ny := dy / dist in
    let p1 := set_x p1 (x p1 - nx * delta) in
    let p1 := set_y p1 (y p1 - ny * delta) in
    let p2 := set_x p2 (x p2 + nx * delta) in
    let p2 := set_y p2 (y p2 + ny * delta) in
    (p1, p2)
  else (p1, p2).

(** ** The rest of QuadTree and CollisionSystem *)

(** [list.remove(v)]: the list without the first [v]. *)
Fixpoint remove_first (v : ref) (l : list ref) : list ref :=
  match l with
  | [] => []
  | a :: l' => if Nat.eqb a v then l' else a :: remove_first v l'
  end.

(** Assignment to [self.particles]. *)
Definition set_particles (t : QuadTree) (ps : list ref) : QuadTree :=
  match t with
  | Leaf b _ cap => Leaf b ps cap
  | Quad b _ cap ne nw se sw => Quad b ps cap ne nw se sw
  end.

(** [QuadTree.update(particle)]: what it returns ([None] for the bare
    [return]) and the node as the call leaves it. *)
Definition QuadTree_update (h : heap) (self : QuadTree) (particle : ref)
  : option bool * QuadTree :=
  if collidepoint (boundary self) (x (h particle)) (y (h particle)) then (None, self)
  else
    let self :=
      if existsb (Nat.eqb particle) (particles self)
      then set_particles self (remove_first particle (particles self))
      else self in
    let '(res, self) := insert h self particle in
    (Some res, self).

(** [create_particle(pos, dt)]; the five random draws are arguments: the
    three colour components of [random.randint(100, 255)] and the two
    velocities of [random.uniform(-0.5, 0.5)]. *)
Definition create_particle (pos : R * R) (dt : R) (c : Z * Z * Z) (init_vx init_vy : R)
  : Particle :=
  let particle := Particle_init (fst pos) (snd pos) (255, 255, 255)%Z in
  let particle :=
    {| x := x particle; y := y particle; radius := 6; color := c;
       last_pos := last_pos particle; accel := (0.0, 0.0); mass := mass particle |} in
  setVelocity particle init_vx init_vy dt.

(** [resolveCollision(p1, p2)] on two objects of the heap. *)
Definition resolve (h : heap) (r1 r2 : ref) : heap :=
  let '(p1, p2) := resolveCollision (h r1) (h r2) in
  upd (upd h r1 p1) r2 p2.

(** The rectangle that [check_collisions] builds around a particle. *)
Definition query_box (particle : Particle) : Rect :=
  mkRect (py_int (x particle - radius particle)) (py_int (y particle - radius particle))
         (py_int (radius particle * 2)) (py_int (radius particle * 2)).

(** The body of the loop of [check_collisions()], for one particle:
    [other != particle] compares the objects. *)
Definition check_particle (t : QuadTree) (h : heap) (particle : ref) : heap :=
  let found := query_acc h t (query_box (h particle)) [] in
  fold_left
    (fun h other => if negb (Nat.eqb other particle) then resolve h particle other else h)
    found h.

(** [check_collisions()] *)
Definition check_collisions (cs : CollisionSystem) (h : heap) : heap :=
  match cs_quad_tree cs with
  | None => h
  | Some t => fold_left (check_particle t) (cs_particles cs) h
  end.

(** One pass of the loop [for _ in range(self.iterations)] of [update]. *)
Definition substep (cs : CollisionSystem) (sub_dt : R) (h : heap) : heap :=
  wall_collisions cs
    (update_particles cs sub_dt
       (check_collisions cs (apply_gravity cs sub_dt h))).

Fixpoint substeps (n : nat) (cs : CollisionSystem) (sub_dt : R) (h : heap) : heap :=
  match n with
  | O => h
  | S n' => substeps n' cs sub_dt (substep cs sub_dt h)
  end.

(** [CollisionSystem.update(dt)]: the solver with its new tree, and the
    heap as the call leaves it; [None] when [dt / self.iterations] raises
    [ZeroDivisionError], which is after the tree is rebuilt.  That is the
    one exception of the call in real arithmetic.  On floats a step can
    overflow to an infinity or a NaN, on which the [int] of
    [check_collisions] raises in the next pass; the reals have neither, and
    the model has no such failure. *)
Definition CollisionSystem_update (cs : CollisionSystem) (dt : R) (h : heap)
  : CollisionSystem * option heap :=
  let cs := set_up_quad_tree h cs in
  if (cs_iterations cs =? 0)%Z then (cs, None)
  else
    let sub_dt := dt / IZR (cs_iterations cs) in
    (cs, Some (substeps (Z.to_nat (cs_iterations cs)) cs sub_dt h)).

(** ** Notions of the properties *)

(** [boundary.collidepoint(particle.x, particle.y)] for the particle behind
    a reference. *)
Definition inside (h : heap) (b : Rect) (p : ref) : bool :=
  collidepoint b (x (h p)) (y (h p)).

(** The point test on integers. *)
Definition collidepointZ (r : Rect) (px py : Z) : bool :=
  ((rect_x r <=? px) && (px <? rect_x r + rect_w r) &&
   (rect_y r <=? py) && (py <? rect_y r + rect_h r))%Z.

(** One axis of the point test. *)
Definition in_span (a w p : Z) : bool := ((a <=? p) && (p <? a + w))%Z.

(** 1 for [True], 0 for [False]. *)
Definition count (b : bool) : nat := if b then 1%nat else 0%nat.

(** The particles that a tree holds, in the order in which [query] visits
    them. *)
Fixpoint refs (t : QuadTree) : list ref :=
  match t with
  | Leaf _ ps _ => ps
  | Quad _ ps _ ne nw se sw => ps ++ refs ne ++ refs nw ++ refs se ++ refs sw
  end.

(** Every particle that a node or one of its descendants holds passes the
    point test of the node's boundary. *)
Fixpoint well_placed (h : heap) (t : QuadTree) : Prop :=
  Forall (fun r => inside h (boundary t) r = true) (refs t) /\
  match t with
  | Leaf _ _ _ => True
  | Quad _ _ _ ne nw se sw =>
      well_placed h ne /\ well_placed h nw /\ well_placed h se /\ well_placed h sw
  end.

(** How often a list holds a particle. *)
Definition occ (r : ref) (l : list ref) : nat := count_occ Nat.eq_dec l r.

(** 1 when [p] is [r], and 0 otherwise. *)
Definition hit (r p : ref) : nat := if Nat.eq_dec p r then 1%nat else 0%nat.

Definition refs_kids (k : children) : list ref :=
  let '(ne, nw, se, sw) := k in refs ne ++ refs nw ++ refs se ++ refs sw.

Definition kids_placed (h : heap) (k : children) : Prop :=
  let '(ne, nw, se, sw) := k in
  well_placed h ne /\ well_placed h nw /\ well_placed h se /\ well_placed h sw.

(** What a call holds afterwards: the particles it held, and [p] once more
    when it returned [True]. *)
Definition holds_after (b : bool) (p : ref) (before after : list ref) : Prop :=
  forall r, occ r after = (occ r before + (if b then hit r p else 0))%nat.

Definition kids_le (m : nat) (k : children) : Prop :=
  let '(ne, nw, se, sw) := k in
  (depth_bound ne <= m /\ depth_bound nw <= m /\
   depth_bound se <= m /\ depth_bound sw <= m)%nat.

(** The loop of [set_up_quad_tree], from any tree. *)
Definition insert_all (h : heap) (ps : list ref) (t : QuadTree) : QuadTree :=
  fold_left (fun t p => snd (insert h t p)) ps t.

(** The squared distance between two centres, the sum of the radii, and
    the test of [resolveCollision]. *)
Definition dist2 (p1 p2 : Particle) : R :=
  (x p2 - x p1) * (x p2 - x p1) + (y p2 - y p1) * (y p2 - y p1).

Definition min_dist (p1 p2 : Particle) : R := radius p1 + radius p2.

Definition overlapping (p1 p2 : Particle) : Prop :=
  eps < dist2 p1 p2 < min_dist p1 p2 * min_dist p1 p2.

(** Every node has capacity [c], and every node that is not divided holds
    at most [c] particles. *)
Fixpoint capped (c : Z) (t : QuadTree) : Prop :=
  match t with
  | Leaf _ ps cap => cap = c /\ (Z.of_nat (length ps) <= c)%Z
  | Quad _ _ cap ne nw se sw =>
      cap = c /\ capped c ne /\ capped c nw /\ capped c se /\ capped c sw
  end.

Definition kids_capped (c : Z) (k : children) : Prop :=
  let '(ne, nw, se, sw) := k in
  capped c ne /\ capped c nw /\ capped c se /\ capped c sw.

(** Two states of a particle that differ in the position at most. *)
Definition same_but_position (p q : Particle) : Prop :=
  last_pos q = last_pos p /\ accel q = accel p /\ radius q = radius p /\
  color q = color p /\ mass q = mass p.

(** The edges of a particle are inside the walls of the arena. *)
Definition inside_walls (width height : Z) (p : Particle) : Prop :=
  radius p <= x p <= IZR width - radius p /\
  radius p <= y p <= IZR height - radius p.

(** The sum of a coordinate over the particles of a list. *)
Definition sum_of (coord : Particle -> R) (l : list ref) (h : heap) : R :=
  fold_right (fun r acc => coord (h r) + acc) 0 l.

Definition sum_x (l : list ref) (h : heap) : R := sum_of x l h.

Definition sum_y (l : list ref) (h : heap) : R := sum_of y l h.

(** ** Inputs of the scenarios *)

(** One substep of a lone particle: [apply_gravity(sub_dt)], then
    [update_particles(sub_dt)]. *)
Definition gravity_substep (cs : CollisionSystem) (sub_dt : R) (p : Particle) : Particle :=
  update (accelerate p 0 (cs_gravity cs * sub_dt)) sub_dt.

(** The particle of the scenario: at rest at (100, 100). *)
Definition dropped : Particle := Particle_init 100 100 (255, 255, 255)%Z.

(** A particle of radius [r] at rest at ([x0], [y0]). *)
Definition ball (x0 y0 r : R) : Particle :=
  {| x := x0; y := y0; radius := r; color := (255, 255, 255)%Z;
     last_pos := (x0, y0); accel := (0, 0); mass := 1 |}.

(** A particle of radius 6 that moved from (10, 100) to (5, 100): its
    velocity is (-5, 0) and its left edge is one unit past the left wall. *)
Definition crossing_left : Particle :=
  {| x := 5; y := 100; radius := 6; color := (255, 255, 255)%Z;
     last_pos := (10, 100); accel := (0, 0); mass := 1 |}.

(** The solver of the counterexample: an arena of 10 by 10 with one
    particle of radius 6 at its centre. *)
Definition narrow_arena : CollisionSystem :=
  add_particle (fun _ => ball 5 5 6) (CollisionSystem_init 10 10) 0%nat.

(** Two particles of radius 6, one past the left wall and one past the
    bottom wall of the solver's arena. *)
Definition two_at_walls : heap :=
  fun r => match r with
           | O => ball 2 300 6
           | _ => ball 400 598 6
           end.

(** The solver's arena of 800 by 600 with these two particles. *)
Definition arena_two : CollisionSystem :=
  add_particle two_at_walls (add_particle two_at_walls (CollisionSystem_init WIDTH HEIGHT) 0%nat) 1%nat.

(** Six particles in the solver's arena, at (0, 74), (1, 74), ..., (5, 74). *)
Definition row74 : heap :=
  fun r => Particle_init (IZR (Z.of_nat r)) 74 (255, 255, 255)%Z.

(** The node of 100 by 75 that holds the first five particles of [row74]. *)
Definition full_node : QuadTree :=
  Leaf (mkRect 0 0 100 75) [0; 1; 2; 3; 4]%nat 5.

(** The tree that [set_up_quad_tree] builds of the six particles. *)
Definition row74_tree : QuadTree :=
  build_quad_tree row74 WIDTH HEIGHT [0; 1; 2; 3; 4; 5]%nat.

(** The box that [check_collisions] builds around the particle at (4, 74),
    of radius 3. *)
Definition box_of_4 : Rect := mkRect 1 71 6 6.

(** A particle at (-5.5, -7), half a unit to the left of the rectangle
    [Rect(-5, -10, 5, 5)], in a node that holds both. *)
Definition left_of_range : heap :=
  fun _ => Particle_init (-5.5) (-7) (255, 255, 255)%Z.

Definition range_m5 : Rect := mkRect (-5) (-10) 5 5.

Definition node_m10 : QuadTree := Leaf (mkRect (-10) (-10) 20 20) [0%nat] 5.

(** * Properties *)

(** ** Boolean comparisons *)

Lemma Rltb_true (a b : R) : Rltb a b = true <-> a < b.
Proof. unfold Rltb. destruct (Rlt_dec a b); split; intros; try discriminate; tauto. Qed.

Lemma Rltb_false (a b : R) : Rltb a b = false <-> b <= a.
Proof.
  unfold Rltb. destruct (Rlt_dec a b); split; intros; try discriminate; try lra;
    reflexivity.
Qed.

Lemma Rltb_lt (a b : R) : a < b -> Rltb a b = true.
Proof. apply Rltb_true. Qed.

Lemma Rltb_ge (a b : R) : b <= a -> Rltb a b = false.
Proof. apply Rltb_false. Qed.

Lemma pair_eq (A B : Type) (a c : A) (b d : B) : a = c -> b = d -> (a, b) = (c, d).
Proof. intros -> ->. reflexivity. Qed.

(** Case analysis on a comparison that guards a branch, innermost first. *)
Ltac no_cmp t :=
  lazymatch t with
  | context [Rltb _ _] => fail
  | _ => idtac
  end.

Ltac case_cmp :=
  match goal with
  | |- context [Rltb ?a ?b] =>
      no_cmp a; no_cmp b;
      let H := fresh "Hcmp" in
      destruct (Rlt_dec a b) as [H | H];
      [ rewrite (Rltb_lt H) | apply Rnot_lt_le in H; rewrite (Rltb_ge H) ];
      cbv beta iota
  end.

(** ** The integer part, towards zero *)

Lemma py_int_IZR (n : Z) : py_int (IZR n) = n.
Proof.
  unfold py_int. destruct (Rle_dec 0 (IZR n)) as [H | H].
  - symmetry. apply Int_part_spec. lra.
  - rewrite <- opp_IZR.
    replace (Int_part (IZR (- n))) with (- n)%Z; [lia |].
    apply Int_part_spec. lra.
Qed.

(** A coordinate that is not negative is cut down, a negative one up. *)
Lemma py_int_nonneg (v : R) :
  0 <= v -> IZR (py_int v) <= v < IZR (py_int v) + 1.
Proof.
  intros Hv. unfold py_int. destruct (Rle_dec 0 v) as [_ | H]; [| contradiction].
  destruct (base_Int_part v). lra.
Qed.

Lemma py_int_neg (v : R) :
  v < 0 -> IZR (py_int v) - 1 < v <= IZR (py_int v).
Proof.
  intros Hv. unfold py_int. destruct (Rle_dec 0 v) as [H | _]; [lra |].
  rewrite opp_IZR. destruct (base_Int_part (- v)). lra.
Qed.

(** The integer is less than one unit away, on either side. *)
Lemma py_int_near (v : R) : v - 1 < IZR (py_int v) < v + 1.
Proof.
  destruct (Rle_dec 0 v) as [H | H].
  - pose proof (py_int_nonneg H). lra.
  - apply Rnot_le_lt in H. pose proof (py_int_neg H). lra.
Qed.

(** A span of integers, read on the coordinate itself. *)
Lemma py_int_span (a b : Z) (v : R) :
  (a <= py_int v < b)%Z ->
  IZR a - 1 < v < IZR b /\ (0 <= v -> IZR a <= v).
Proof.
  intros [Ha Hb].
  apply IZR_le in Ha.
  assert (Hb' : IZR (py_int v) <= IZR b - 1).
  { replace (IZR b - 1) with (IZR (b - 1)) by (rewrite minus_IZR; reflexivity).
    apply IZR_le. lia. }
  destruct (Rle_dec 0 v) as [H | H].
  - pose proof (py_int_nonneg H). split; [lra |]. intros _. lra.
  - apply Rnot_le_lt in H. pose proof (py_int_neg H).
    assert (Hb0 : IZR (py_int v) < v + 1) by lra.
    split; [| intros Hv; lra].
    split; [lra |].
    destruct (Z_le_gt_dec b 0) as [Hle | Hgt].
    + lra.
    + assert (1 <= IZR b) by (apply (IZR_le 1); lia). lra.
Qed.

(** The integer part towards zero, from its bounds. *)
Lemma py_int_unique (z : Z) (v : R) :
  (0 <= v -> IZR z <= v < IZR z + 1) ->
  (v < 0 -> IZR z - 1 < v <= IZR z) ->
  py_int v = z.
Proof.
  intros Hpos Hneg.
  assert (H : IZR (py_int v) < IZR (z + 1) /\ IZR z < IZR (py_int v + 1)).
  { rewrite !plus_IZR. destruct (Rle_dec 0 v) as [H | H].
    - pose proof (py_int_nonneg H). specialize (Hpos H). lra.
    - apply Rnot_le_lt in H. pose proof (py_int_neg H). specialize (Hneg H). lra. }
  destruct H as [H1 H2]. apply lt_IZR in H1. apply lt_IZR in H2. lia.
Qed.

(** From the coordinate to the integer. *)
Lemma py_int_ge (a : Z) (v : R) : IZR a <= v -> (a <= py_int v)%Z.
Proof.
  intros Hv. pose proof (py_int_near v) as [Hlo _].
  assert (H : IZR (a - 1) < IZR (py_int v)) by (rewrite minus_IZR; lra).
  apply lt_IZR in H. lia.
Qed.

Lemma py_int_lt (a : Z) (v : R) : v <= IZR a - 1 -> (py_int v < a)%Z.
Proof.
  intros Hv. pose proof (py_int_near v) as [_ Hhi].
  apply lt_IZR. lra.
Qed.

(** Less than one unit below zero is cut to zero. *)
Lemma py_int_from_zero (b : Z) (v : R) :
  (0 < b)%Z -> -1 < v < IZR b -> (0 <= py_int v < b)%Z.
Proof.
  intros Hb [Hlo Hhi]. destruct (Rle_dec 0 v) as [H | H].
  - pose proof (py_int_nonneg H) as [H1 H2]. split.
    + apply (@py_int_ge 0 v). exact H.
    + apply lt_IZR. lra.
  - apply Rnot_le_lt in H. pose proof (py_int_neg H) as [H1 H2]. split.
    + assert (H0 : IZR (-1) < IZR (py_int v)) by lra.
      apply lt_IZR in H0. lia.
    + assert (H0 : IZR (py_int v) < IZR 1) by lra.
      apply lt_IZR in H0. lia.
Qed.

(** ** Particle.update *)

(** C6: [update(dt)] moves the particle to
    [position + last_move + (accel - last_move * 0.5) * dt^2], where
    [last_move = position - previous position]; afterwards the previous
    position is the old position and the accumulated acceleration is zero. *)
Theorem update_verlet_step (p : Particle) (dt : R) :
  let last_move := (x p - fst (last_pos p), y p - snd (last_pos p)) in
  VELOCITY_DAMPENING = 0.5 /\
  x (update p dt) =
    x p + fst last_move + (fst (accel p) - fst last_move * 0.5) * dt ^ 2 /\
  y (update p dt) =
    y p + snd last_move + (snd (accel p) - snd last_move * 0.5) * dt ^ 2 /\
  last_pos (update p dt) = (x p, y p) /\
  accel (update p dt) = (0, 0).
Proof.
  unfold update, VELOCITY_DAMPENING; simpl.
  repeat split; ring.
Qed.

(** ** Gravity for one substep *)

(** In a solver that holds one particle, [apply_gravity] followed by
    [update_particles] is [gravity_substep] of that particle. *)
Lemma gravity_substep_of_solver (cs : CollisionSystem) (sub_dt : R) (h : heap) (r : ref) :
  cs_particles cs = [r] ->
  update_particles cs sub_dt (apply_gravity cs sub_dt h) r = gravity_substep cs sub_dt (h r).
Proof.
  intros Hps. unfold update_particles, apply_gravity, for_particles, gravity_substep.
  rewrite Hps. simpl. unfold upd. rewrite !Nat.eqb_refl. reflexivity.
Qed.

(** C7, as stated, fails: with the solver's gravity (2000) and
    [sub_dt = 0.02] a particle at rest has no damping term, and its y grows
    by 0.016, which is not [gravity * sub_dt^2 = 0.8]. *)
Lemma gravity_substep_not_g_dt2 :
  let cs := CollisionSystem_init WIDTH HEIGHT in
  let sub_dt := 0.02 in
  let p' := gravity_substep cs sub_dt dropped in
  let damping_term := (y dropped - snd (last_pos dropped)) * VELOCITY_DAMPENING * sub_dt ^ 2 in
  last_pos p' = last_pos dropped /\
  damping_term = 0 /\
  y p' - y dropped = 0.016 /\
  cs_gravity cs * sub_dt ^ 2 = 0.8 /\
  ~ Rabs ((y p' - y dropped) - cs_gravity cs * sub_dt ^ 2) <= Rabs damping_term.
Proof.
  unfold gravity_substep, update, accelerate, dropped, VELOCITY_DAMPENING; simpl.
  repeat split; try lra.
  intros H.
  replace ((100 - 100) * 0.5 * (0.02 * (0.02 * 1))) with 0 in H by lra.
  rewrite Rabs_R0 in H.
  unfold Rabs in H. destruct (Rcase_abs _) in H; lra.
Qed.

(** C7, amended: a particle at rest with no accumulated acceleration keeps
    its previous position and its x, and its y grows by
    [gravity * sub_dt * sub_dt^2]: [apply_gravity] passes
    [gravity * sub_dt] as the acceleration and [update] multiplies it by
    [sub_dt^2]. *)
Theorem gravity_substep_at_rest (cs : CollisionSystem) (sub_dt : R) (p : Particle) :
  last_pos p = (x p, y p) ->
  accel p = (0, 0) ->
  let p' := gravity_substep cs sub_dt p in
  last_pos p' = last_pos p /\
  x p' = x p /\
  y p' = y p + cs_gravity cs * sub_dt * sub_dt ^ 2.
Proof.
  intros Hrest Hacc.
  unfold gravity_substep, update, accelerate, VELOCITY_DAMPENING; simpl.
  rewrite Hrest, Hacc; simpl.
  repeat split; try ring.
Qed.

Lemma gravity_substep_at_rest_witness :
  let p' := gravity_substep (CollisionSystem_init WIDTH HEIGHT) 0.02 dropped in
  last_pos p' = last_pos dropped /\
  x p' = x dropped /\
  y p' = y dropped + cs_gravity (CollisionSystem_init WIDTH HEIGHT) * 0.02 * 0.02 ^ 2.
Proof.
  apply (@gravity_substep_at_rest (CollisionSystem_init WIDTH HEIGHT) 0.02 dropped);
    reflexivity.
Defined.

(** ** resolveCollision *)

(** C9: [resolveCollision] is a correction of positions only: the previous
    position, the accumulated acceleration, the radius, the colour and the
    mass of both particles are as before. *)
Theorem resolveCollision_frame (p1 p2 : Particle) :
  let p1' := fst (resolveCollision p1 p2) in
  let p2' := snd (resolveCollision p1 p2) in
  (last_pos p1' = last_pos p1 /\ accel p1' = accel p1 /\
   radius p1' = radius p1 /\ color p1' = color p1 /\ mass p1' = mass p1) /\
  (last_pos p2' = last_pos p2 /\ accel p2' = accel p2 /\
   radius p2' = radius p2 /\ color p2' = color p2 /\ mass p2' = mass p2).
Proof.
  unfold resolveCollision; simpl.
  destruct (Rltb _ _ && Rgtb _ _); simpl; repeat split; reflexivity.
Qed.

(** The positive square root, from its square. *)
Lemma sqrt_unique (s d : R) : 0 <= d -> d * d = s -> sqrt s = d.
Proof. intros Hd <-. apply sqrt_square, Hd. Qed.

(** The test of [resolveCollision], as a proposition. *)
Lemma resolve_test (dist2 min_dist2 : R) :
  Rltb dist2 min_dist2 && Rgtb dist2 eps = true <-> eps < dist2 < min_dist2.
Proof.
  unfold Rgtb. rewrite andb_true_iff, !Rltb_true. tauto.
Qed.

(** C2, as stated, fails: two particles of radius 5 whose centres are
    0.0005 apart have [0 < distance^2 < (radius_p + radius_q)^2], and
    [resolveCollision] leaves them where they are. *)
Lemma resolveCollision_skips_below_eps :
  let p := ball 0 0 5 in
  let q := ball 0.0005 0 5 in
  let dist2 := (x q - x p) * (x q - x p) + (y q - y p) * (y q - y p) in
  0 < dist2 < (radius p + radius q) * (radius p + radius q) /\
  resolveCollision p q = (p, q).
Proof.
  simpl. split; [lra |].
  unfold resolveCollision, Rgtb; simpl.
  rewrite (@Rltb_ge eps) by (unfold eps; lra).
  rewrite andb_false_r. reflexivity.
Qed.

(** C2, amended: [resolveCollision] changes positions exactly when
    [eps < distance^2 < (radius_p + radius_q)^2], with [eps = 1e-6]; then
    each particle moves by [0.5 * overlap] away from the other along the
    unit normal between the centres, where
    [overlap = radius_p + radius_q - distance]; otherwise both positions
    stay.  The two particles of radius 5 at (100, 100) and (106, 100) end at
    (98, 100) and (108, 100), 10 apart. *)
Theorem resolveCollision_displacement :
  (forall p1 p2 : Particle,
     let dx := x p2 - x p1 in
     let dy := y p2 - y p1 in
     let dist2 := dx * dx + dy * dy in
     let min_dist := radius p1 + radius p2 in
     let dist := sqrt dist2 in
     let overlap := min_dist - dist in
     let nx := dx / dist in
     let ny := dy / dist in
     let p1' := fst (resolveCollision p1 p2) in
     let p2' := snd (resolveCollision p1 p2) in
     (eps < dist2 < min_dist * min_dist ->
        nx * nx + ny * ny = 1 /\
        (0 <= min_dist -> 0 < overlap) /\
        x p1' = x p1 - nx * (0.5 * overlap) /\
        y p1' = y p1 - ny * (0.5 * overlap) /\
        x p2' = x p2 + nx * (0.5 * overlap) /\
        y p2' = y p2 + ny * (0.5 * overlap) /\
        (x p1', y p1') <> (x p1, y p1) /\
        (x p2', y p2') <> (x p2, y p2)) /\
     (~ eps < dist2 < min_dist * min_dist ->
        x p1' = x p1 /\ y p1' = y p1 /\ x p2' = x p2 /\ y p2' = y p2)) /\
  (let p1' := fst (resolveCollision (ball 100 100 5) (ball 106 100 5)) in
   let p2' := snd (resolveCollision (ball 100 100 5) (ball 106 100 5)) in
   (x p1', y p1') = (98, 100) /\ (x p2', y p2') = (108, 100) /\
   sqrt ((x p2' - x p1') * (x p2' - x p1') + (y p2' - y p1') * (y p2' - y p1')) = 10).
Proof.
  split.
  - intros p1 p2 dx dy dist2 min_dist dist overlap nx ny p1' p2'.
    split.
    + intros Hc.
      assert (Ht := proj2 (resolve_test dist2 (min_dist * min_dist)) Hc).
      assert (Heps : 0 < dist2) by (unfold eps in Hc; lra).
      assert (Hd : 0 < dist) by (apply sqrt_lt_R0, Heps).
      assert (Hdd : dist * dist = dist2) by (apply sqrt_def; lra).
      assert (Hunit : nx * nx + ny * ny = 1).
      { unfold nx, ny. field_simplify; [| lra].
        replace (dx ^ 2 + dy ^ 2) with dist2 by (unfold dist2; ring).
        replace (dist ^ 2) with dist2 by (rewrite <- Hdd; ring).
        field; lra. }
      assert (Hov : overlap <> 0).
      { unfold overlap. intros H0.
        assert (dist = min_dist) by lra. subst min_dist. rewrite <- H in Hc. lra. }
      assert (Hx1 : x p1' = x p1 - nx * (0.5 * overlap)).
      { unfold p1', resolveCollision. fold dx dy dist2 min_dist. rewrite Ht. simpl.
        fold dx dy dist2 min_dist dist overlap nx. lra. }
      assert (Hy1 : y p1' = y p1 - ny * (0.5 * overlap)).
      { unfold p1', resolveCollision. fold dx dy dist2 min_dist. rewrite Ht. simpl.
        fold dx dy dist2 min_dist dist overlap ny. lra. }
      assert (Hx2 : x p2' = x p2 + nx * (0.5 * overlap)).
      { unfold p2', resolveCollision. fold dx dy dist2 min_dist. rewrite Ht. simpl.
        fold dx dy dist2 min_dist dist overlap nx. lra. }
      assert (Hy2 : y p2' = y p2 + ny * (0.5 * overlap)).
      { unfold p2', resolveCollision. fold dx dy dist2 min_dist. rewrite Ht. simpl.
        fold dx dy dist2 min_dist dist overlap ny. lra. }
      assert (Hn : nx * overlap <> 0 \/ ny * overlap <> 0).
      { destruct (Req_dec nx 0) as [Hnx | Hnx].
        - right. apply Rmult_integral_contrapositive_currified; [| exact Hov].
          intros Hny. rewrite Hnx, Hny in Hunit. lra.
        - left. apply Rmult_integral_contrapositive_currified; assumption. }
      repeat split; try assumption.
      * intros Hm. unfold overlap. nra.
      * intros Heq. injection Heq as Ex Ey. rewrite Hx1 in Ex. rewrite Hy1 in Ey.
        destruct Hn; lra.
      * intros Heq. injection Heq as Ex Ey. rewrite Hx2 in Ex. rewrite Hy2 in Ey.
        destruct Hn; lra.
    + intros Hc.
      assert (Ht : Rltb dist2 (min_dist * min_dist) && Rgtb dist2 eps = false).
      { destruct (Rltb dist2 (min_dist * min_dist) && Rgtb dist2 eps) eqn:E; [| reflexivity].
        apply resolve_test in E. contradiction. }
      unfold p1', p2', resolveCollision. fold dx dy dist2 min_dist. rewrite Ht.
      simpl. repeat split; reflexivity.
  - assert (Hs : sqrt ((106 - 100) * (106 - 100) + (100 - 100) * (100 - 100)) = 6)
      by (apply sqrt_unique; lra).
    unfold resolveCollision; simpl.
    rewrite (proj2 (resolve_test _ _)) by (unfold eps; lra).
    simpl. rewrite Hs.
    repeat split.
    + apply pair_eq; lra.
    + apply pair_eq; lra.
    + apply sqrt_unique; lra.
Qed.

(** ** wall_collisions *)

(** C3, as stated, fails: the particle crosses the left wall with velocity
    (-5, 0) and leaves wall resolution with velocity (3.2, 0), not
    (5 * 0.8, 0) = (4, 0): the velocity that is reflected is read after the
    position is clamped. *)
Lemma wall_reflection_not_v_restitution :
  let p' := wall_collide WIDTH HEIGHT crossing_left in
  getVelocity crossing_left = (-5, 0) /\
  x crossing_left - radius crossing_left < 0 /\
  x p' = radius crossing_left /\
  getVelocity p' = (3.2, 0) /\
  5 * restitution = 4.
Proof.
  unfold wall_collide, crossing_left, getVelocity, setVelocity, restitution, Rgtb,
    WIDTH, HEIGHT; simpl.
  rewrite (@Rltb_lt (5 - 6) 0) by lra. simpl.
  rewrite (@Rltb_ge (100 - 6) 0) by lra.
  rewrite (@Rltb_ge 600 (100 + 6)) by lra. simpl.
  repeat split; try lra; apply pair_eq; lra.
Qed.

(** C3, amended: a particle that crosses the left wall with velocity
    (-v, 0) is clamped to x = radius and leaves with x-velocity
    [(v - d) * 0.8], where [d = radius - x] is how far it had crossed: the
    sign is flipped and the restitution 0.8 scales the velocity as read
    after the clamp, through [setVelocity] with [dt = 1].  When its
    y-extent is inside the arena, y and the y-velocity 0 are unchanged. *)
Theorem wall_reflection_left (width height : Z) (p : Particle) (v : R) :
  getVelocity p = (- v, 0) ->
  x p - radius p < 0 ->
  let p' := wall_collide width height p in
  let d := radius p - x p in
  restitution = 0.8 /\
  x p' = radius p /\
  fst (getVelocity p') = (v - d) * restitution /\
  fst (last_pos p') = x p' - (v - d) * restitution * 1 /\
  (0 <= y p - radius p -> y p + radius p <= IZR height ->
   y p' = y p /\ getVelocity p' = ((v - d) * restitution, 0)).
Proof.
  unfold getVelocity. intros Hv Hx.
  injection Hv as Hvx Hvy.
  unfold wall_collide, Rgtb.
  rewrite (Rltb_lt Hx).
  unfold getVelocity, setVelocity; simpl.
  repeat case_cmp; simpl; unfold restitution; repeat split;
    first [lra | apply pair_eq; lra].
Qed.

Lemma wall_reflection_left_witness :
  let p' := wall_collide WIDTH HEIGHT crossing_left in
  let d := radius crossing_left - x crossing_left in
  restitution = 0.8 /\
  x p' = radius crossing_left /\
  fst (getVelocity p') = (5 - d) * restitution /\
  fst (last_pos p') = x p' - (5 - d) * restitution * 1 /\
  (0 <= y crossing_left - radius crossing_left ->
   y crossing_left + radius crossing_left <= IZR HEIGHT ->
   y p' = y crossing_left /\ getVelocity p' = ((5 - d) * restitution, 0)).
Proof.
  apply (@wall_reflection_left WIDTH HEIGHT crossing_left 5).
  - unfold getVelocity; simpl. apply pair_eq; lra.
  - simpl. lra.
Defined.

(** [wall_collide] keeps the radius. *)
Lemma wall_collide_radius (width height : Z) (p : Particle) :
  radius (wall_collide width height p) = radius p.
Proof.
  unfold wall_collide, Rgtb, getVelocity, setVelocity.
  repeat case_cmp; reflexivity.
Qed.

(** One particle after [wall_collide], in an arena that is at least as wide
    and as high as the particle. *)
Lemma wall_collide_inside (width height : Z) (p : Particle) :
  2 * radius p <= IZR width ->
  2 * radius p <= IZR height ->
  let p' := wall_collide width height p in
  radius p' <= x p' <= IZR width - radius p' /\
  radius p' <= y p' <= IZR height - radius p'.
Proof.
  intros Hw Hh p'. unfold p'. clear p'. rewrite wall_collide_radius.
  unfold wall_collide, Rgtb, getVelocity, setVelocity.
  repeat case_cmp; simpl in *; lra.
Qed.

Section ForParticles.

Variable f : Particle -> Particle.

(** A particle that the loop does not visit is left alone. *)
Lemma for_particles_other (ps : list ref) (h : heap) (r : ref) :
  ~ In r ps -> for_particles f ps h r = h r.
Proof.
  revert h. induction ps as [| a ps IH]; intros h Hr; [reflexivity |].
  unfold for_particles in *; simpl.
  rewrite IH by (intros Hin; apply Hr; right; exact Hin).
  unfold upd. destruct (Nat.eqb_spec r a) as [-> | _]; [| reflexivity].
  exfalso; apply Hr; left; reflexivity.
Qed.

(** A particle that the loop visits ends as [f] of a state that an
    invariant of [f] still describes. *)
Lemma for_particles_visited (I : Particle -> Prop) (ps : list ref) (h : heap) (r : ref) :
  (forall p, I p -> I (f p)) ->
  In r ps -> I (h r) ->
  exists p0, I p0 /\ for_particles f ps h r = f p0.
Proof.
  intros HI. revert h. induction ps as [| a ps IH]; intros h Hin Hr; [destruct Hin |].
  destruct (in_dec Nat.eq_dec r ps) as [Hps | Hps].
  - unfold for_particles in *; simpl. apply IH; [exact Hps |].
    unfold upd. destruct (Nat.eqb_spec r a) as [-> | _]; [apply HI |]; exact Hr.
  - destruct Hin as [-> | Hin]; [| contradiction].
    exists (h r). split; [exact Hr |].
    change (for_particles f (r :: ps) h) with (for_particles f ps (upd h r (f (h r)))).
    rewrite for_particles_other by exact Hps.
    unfold upd. rewrite Nat.eqb_refl. reflexivity.
Qed.

End ForParticles.

(** C8, as stated, fails in an arena narrower than a particle: the particle
    of radius 6 ends at x = 6, to the right of [width - radius = 4]. *)
Lemma wall_containment_needs_room :
  let h' := wall_collisions narrow_arena (fun _ => ball 5 5 6) in
  In 0%nat (cs_particles narrow_arena) /\
  x (h' 0%nat) = 6 /\
  IZR (cs_width narrow_arena) - radius (h' 0%nat) = 4 /\
  ~ x (h' 0%nat) <= IZR (cs_width narrow_arena) - radius (h' 0%nat).
Proof.
  unfold wall_collisions, for_particles, narrow_arena, upd; simpl.
  unfold wall_collide, Rgtb, getVelocity, setVelocity; simpl.
  rewrite (@Rltb_lt (5 - 6) 0) by lra. simpl.
  rewrite (@Rltb_lt (5 - 6) 0) by lra. simpl.
  repeat split; try lra. left; reflexivity.
Qed.

(** C8, amended: in real arithmetic, after [wall_collisions], every
    particle of the solver's list whose diameter is at most the arena's
    width and height has [radius <= x <= width - radius] and
    [radius <= y <= height - radius].  (The tests and the clamps are those
    of the reals; in binary64 [x + radius] can round to [width], the test
    is then not taken, and [x] stays a rounding above [width - radius].) *)
Theorem wall_containment (cs : CollisionSystem) (h : heap) (r : ref) :
  In r (cs_particles cs) ->
  2 * radius (h r) <= IZR (cs_width cs) ->
  2 * radius (h r) <= IZR (cs_height cs) ->
  let p' := wall_collisions cs h r in
  radius p' <= x p' <= IZR (cs_width cs) - radius p' /\
  radius p' <= y p' <= IZR (cs_height cs) - radius p'.
Proof.
  intros Hin Hw Hh p'. unfold p', wall_collisions.
  destruct (@for_particles_visited (wall_collide (cs_width cs) (cs_height cs))
              (fun p => radius p = radius (h r)) (cs_particles cs) h r)
    as (p0 & Hp0 & ->); [| exact Hin | reflexivity |].
  - intros p Hp. rewrite wall_collide_radius. exact Hp.
  - apply wall_collide_inside; rewrite Hp0; assumption.
Qed.

Lemma wall_containment_witness :
  let p' := wall_collisions arena_two two_at_walls 1%nat in
  radius p' <= x p' <= IZR (cs_width arena_two) - radius p' /\
  radius p' <= y p' <= IZR (cs_height arena_two) - radius p'.
Proof.
  apply (@wall_containment arena_two two_at_walls 1%nat).
  - simpl. right; left; reflexivity.
  - simpl. unfold WIDTH. lra.
  - simpl. unfold HEIGHT. lra.
Defined.

(** ** QuadTree.query *)

(** The loop [for p in self.particles] of [query] appends the matches. *)
Lemma query_loop_filter (f : ref -> bool) (ps found : list ref) :
  fold_left (fun acc p => if f p then acc ++ [p] else acc) ps found
  = found ++ filter f ps.
Proof.
  revert found. induction ps as [| p ps IH]; intros found; simpl.
  - symmetry. apply app_nil_r.
  - rewrite IH. destruct (f p); [| reflexivity].
    rewrite <- app_assoc. reflexivity.
Qed.

(** [query] appends to [found]. *)
Lemma query_acc_app (h : heap) (range : Rect) (t : QuadTree) (found : list ref) :
  query_acc h t range found = found ++ query_acc h t range [].
Proof.
  revert found.
  induction t as [b ps cap | b ps cap ne IHne nw IHnw se IHse sw IHsw];
    intros found; simpl.
  - destruct (colliderect b range); simpl.
    + rewrite !query_loop_filter. reflexivity.
    + symmetry. apply app_nil_r.
  - destruct (colliderect b range); simpl.
    + rewrite !query_loop_filter; simpl.
      rewrite (IHsw (query_acc h se range _)), (IHse (query_acc h nw range _)),
        (IHnw (query_acc h ne range _)), (IHne (found ++ _)).
      rewrite (IHsw (query_acc h se range _)), (IHse (query_acc h nw range _)),
        (IHnw (query_acc h ne range _)), (IHne (filter _ _)).
      rewrite <- !app_assoc. reflexivity.
    + symmetry. apply app_nil_r.
Qed.

(** C10: [query] only appends to [found]: the list it leaves is the old
    [found] followed by what the same query leaves of an empty list; when
    [query] returns a list, it is that list. *)
Theorem query_appends (h : heap) (t : QuadTree) (range : Rect) (found : list ref) :
  query_acc h t range found = found ++ query_acc h t range [] /\
  (forall l, query h t range found = Some l -> l = found ++ query_acc h t range []).
Proof.
  split; [apply query_acc_app |].
  unfold query. intros l. destruct (negb _); [discriminate |].
  intros [= <-]. apply query_acc_app.
Qed.

(** ** QuadTree.subdivide *)

(** The point test is the test on integers of the coordinates, cut. *)
Lemma collidepoint_py_int (r : Rect) (px py : R) :
  collidepoint r px py = collidepointZ r (py_int px) (py_int py).
Proof. reflexivity. Qed.

Lemma collidepoint_IZR (r : Rect) (px py : Z) :
  collidepoint r (IZR px) (IZR py) = collidepointZ r px py.
Proof. rewrite collidepoint_py_int, !py_int_IZR. reflexivity. Qed.

Lemma collidepoint_true (r : Rect) (px py : R) :
  collidepoint r px py = true <->
  (rect_x r <= py_int px < rect_x r + rect_w r)%Z /\
  (rect_y r <= py_int py < rect_y r + rect_h r)%Z.
Proof.
  rewrite collidepoint_py_int. unfold collidepointZ.
  rewrite !andb_true_iff, !Z.leb_le, !Z.ltb_lt. tauto.
Qed.

(** C4, on the code: a node of 100 by 75 (the solver's arena of 800 by 600,
    halved three times) gets four children of 50 by 37; the south ones are
    no taller than the north ones, and the point (0, 74) of the parent is in
    none of the four. *)
Theorem subdivide_leaves_gap :
  let parent := mkRect 0 0 100 75 in
  let '(ne, nw, se, sw) := subdivide_rects parent in
  ne = mkRect 50 0 50 37 /\ nw = mkRect 0 0 50 37 /\
  se = mkRect 50 37 50 37 /\ sw = mkRect 0 37 50 37 /\
  collidepoint parent 0 74 = true /\
  collidepoint ne 0 74 = false /\ collidepoint nw 0 74 = false /\
  collidepoint se 0 74 = false /\ collidepoint sw 0 74 = false.
Proof.
  cbv [subdivide_rects rect_x rect_y rect_w rect_h].
  rewrite !collidepoint_IZR.
  repeat split; reflexivity.
Qed.

(** ** QuadTree.insert *)

Section InsertEquations.

Variable h : heap.

Lemma insert_fuel_outside (n : nat) (t : QuadTree) (p : ref) :
  inside h (boundary t) p = false ->
  insert_fuel (S n) h t p = Some (false, t).
Proof. unfold inside; simpl. intros ->. reflexivity. Qed.

Lemma insert_fuel_leaf_room (n : nat) (b : Rect) (ps : list ref) (cap : Z) (p : ref) :
  inside h b p = true ->
  (Z.of_nat (length ps) <? cap)%Z = true ->
  insert_fuel (S n) h (Leaf b ps cap) p = Some (true, Leaf b (ps ++ [p]) cap).
Proof. unfold inside; simpl. intros -> ->. reflexivity. Qed.

Lemma insert_fuel_leaf_full (n : nat) (b : Rect) (ps : list ref) (cap : Z) (p : ref) :
  inside h b p = true ->
  (Z.of_nat (length ps) <? cap)%Z = false ->
  insert_fuel (S n) h (Leaf b ps cap) p =
    ('(k, kept) <- redistribute (insert_fuel n h) ps (subdivide b cap) [] ;;
     '(res, (ne, nw, se, sw)) <- insert_children (insert_fuel n h) k p ;;
     Some (res, Quad b kept cap ne nw se sw)).
Proof. unfold inside; simpl. intros -> ->. reflexivity. Qed.

Lemma insert_fuel_quad (n : nat) (b : Rect) (ps : list ref) (cap : Z)
      (ne nw se sw : QuadTree) (p : ref) :
  inside h b p = true ->
  insert_fuel (S n) h (Quad b ps cap ne nw se sw) p =
    ('(res, (ne', nw', se', sw')) <-
       insert_children (insert_fuel n h) (ne, nw, se, sw) p ;;
     Some (res, Quad b ps cap ne' nw' se' sw')).
Proof. unfold inside; simpl. intros ->. reflexivity. Qed.

End InsertEquations.

Lemma inside_row74 (b : Rect) (r : ref) :
  inside row74 b r = collidepointZ b (Z.of_nat r) 74.
Proof. unfold inside, row74; simpl. apply collidepoint_IZR. Qed.

Lemma bind_eval (A B : Type) (m : option A) (a : A) (f : A -> option B) (r : option B) :
  m = Some a -> f a = r -> bind m f = r.
Proof. intros -> <-. reflexivity. Qed.

Lemma redistribute_cons (ins : QuadTree -> ref -> option (bool * QuadTree))
      (p : ref) (rest : list ref) (k : children) (kept : list ref) :
  redistribute ins (p :: rest) k kept =
    ('(inserted, k') <- insert_children ins k p ;;
     redistribute ins rest k' (if inserted then kept else kept ++ [p])).
Proof. reflexivity. Qed.

(** Evaluation of a call of [insert_fuel] on [row74], in the order in which
    the code runs: the goal is [e = ?r], and [?r] becomes the value of [e]. *)
Ltac row74_side := rewrite inside_row74; reflexivity.

Ltac row74_call :=
  lazymatch goal with
  | |- insert_fuel (S _) row74 ?t ?p = _ =>
      let v := eval vm_compute in (collidepointZ (boundary t) (Z.of_nat p) 74) in
      lazymatch v with
      | false => rewrite (@insert_fuel_outside row74) by row74_side
      | true =>
          lazymatch t with
          | Leaf _ ?ps ?cap =>
              let c := eval vm_compute in (Z.of_nat (length ps) <? cap)%Z in
              lazymatch c with
              | true =>
                  rewrite (@insert_fuel_leaf_room row74)
                    by first [row74_side | reflexivity]
              | false =>
                  rewrite (@insert_fuel_leaf_full row74)
                    by first [row74_side | reflexivity]
              end
          | Quad _ _ _ _ _ _ _ => rewrite (@insert_fuel_quad row74) by row74_side
          end
      end
  end.

Ltac row74_run :=
  cbv beta iota;
  lazymatch goal with
  | |- Some ?v = _ =>
      let v' := eval vm_compute in v in
      exact (@eq_refl _ (Some v'))
  | |- bind _ _ = _ => eapply bind_eval; [row74_run | row74_run]
  | |- insert_fuel _ _ _ _ = _ => row74_call; row74_run
  | |- insert_children _ _ _ = _ =>
      cbv beta iota zeta delta [insert_children]; row74_run
  | |- redistribute _ [] ?k ?kept = _ =>
      let v' := eval vm_compute in (k, kept) in
      exact (@eq_refl _ (Some v'))
  | |- redistribute _ (_ :: _) _ _ = _ =>
      rewrite redistribute_cons;
      cbv beta iota zeta delta [subdivide subdivide_rects QuadTree_init];
      row74_run
  end.

Ltac row74_fuel :=
  match goal with
  | |- context [insert_fuel (depth_bound ?t)] =>
      let n := eval vm_compute in (depth_bound t) in
      change (depth_bound t) with n
  end.

(** [insert] of a particle of [row74], as an equation [insert ... = ?r]. *)
Ltac row74_insert :=
  unfold insert; row74_fuel;
  match goal with
  | |- match ?e with Some _ => _ | None => _ end = _ =>
      let H := fresh "Hrun" in
      eassert (H : e = _) by row74_run;
      rewrite H; clear H
  end.

(** C5, on the code: the leaf is full, so [insert] of the particle at
    (5, 74) subdivides it.  All six points are inside the node and fail the
    four quadrant tests.  The five particles that the node held stay in its
    list; the new one is in no list, and [insert] returns [False]. *)
Theorem insert_drops_new_particle :
  inside row74 (boundary full_node) 5%nat = true /\
  (let '(ne, nw, se, sw) := subdivide_rects (boundary full_node) in
   inside row74 ne 5%nat = false /\ inside row74 nw 5%nat = false /\
   inside row74 se 5%nat = false /\ inside row74 sw 5%nat = false) /\
  insert row74 full_node 5%nat =
    (false,
     Quad (mkRect 0 0 100 75) [0; 1; 2; 3; 4]%nat 5
          (Leaf (mkRect 50 0 50 37) [] 5) (Leaf (mkRect 0 0 50 37) [] 5)
          (Leaf (mkRect 50 37 50 37) [] 5) (Leaf (mkRect 0 37 50 37) [] 5)).
Proof.
  split; [row74_side |].
  split; [cbv [subdivide_rects full_node boundary]; repeat split; row74_side |].
  unfold full_node. row74_insert. reflexivity.
Qed.

(** Evaluation of the innermost call of [insert] on [row74]. *)
Ltac row74_eval :=
  match goal with
  | |- context [insert row74 ?t ?p] =>
      lazymatch t with
      | context [insert] => fail
      | _ =>
          let H := fresh "Hins" in
          eassert (H : insert row74 t p = _) by (row74_insert; reflexivity);
          rewrite H; clear H; cbn [snd fst]
      end
  end.

(** [query] one node at a time. *)
Section QueryEquations.

Variable h : heap.

Lemma query_acc_miss (t : QuadTree) (range : Rect) (found : list ref) :
  colliderect (boundary t) range = false ->
  query_acc h t range found = found.
Proof. intros H. destruct t; simpl in *; rewrite H; reflexivity. Qed.

Lemma query_acc_leaf (b : Rect) (ps : list ref) (cap : Z) (range : Rect)
      (found : list ref) :
  colliderect b range = true ->
  query_acc h (Leaf b ps cap) range found = found ++ filter (inside h range) ps.
Proof. intros H. simpl. rewrite H. apply query_loop_filter. Qed.

Lemma query_acc_quad (b : Rect) (ps : list ref) (cap : Z) (ne nw se sw : QuadTree)
      (range : Rect) (found : list ref) :
  colliderect b range = true ->
  query_acc h (Quad b ps cap ne nw se sw) range found =
    query_acc h sw range
      (query_acc h se range
         (query_acc h nw range
            (query_acc h ne range (found ++ filter (inside h range) ps)))).
Proof. intros H. simpl. rewrite H. simpl. rewrite query_loop_filter. reflexivity. Qed.

End QueryEquations.

Lemma filter_inside_row74 (range : Rect) (ps : list ref) :
  filter (inside row74 range) ps =
  filter (fun r => collidepointZ range (Z.of_nat r) 74) ps.
Proof. apply filter_ext. intros r. apply inside_row74. Qed.

(** Evaluation of the innermost call of [query] on [row74]. *)
Ltac row74_matches :=
  rewrite filter_inside_row74;
  match goal with
  | |- context [?a ++ filter ?g ?ps] =>
      let v := eval vm_compute in (a ++ filter g ps) in
      change (a ++ filter g ps) with v
  end.

Ltac row74_query :=
  match goal with
  | |- context [query_acc row74 ?t ?rg ?f] =>
      lazymatch f with
      | context [query_acc] => fail
      | _ =>
          let c := eval vm_compute in (colliderect (boundary t) rg) in
          lazymatch c with
          | false => rewrite (@query_acc_miss row74 t rg f) by reflexivity
          | true =>
              lazymatch t with
              | Leaf ?b ?ps ?cap =>
                  rewrite (@query_acc_leaf row74 b ps cap rg f) by reflexivity;
                  row74_matches
              | Quad ?b ?ps ?cap ?ne ?nw ?se ?sw =>
                  rewrite (@query_acc_quad row74 b ps cap ne nw se sw rg f) by reflexivity;
                  row74_matches
              end
          end
      end
  end.

(** C1, on the code: the solver's tree of six particles in the arena of 800
    by 600.  [insert] returns [False] for the particle at (5, 74), whose
    point is inside the root boundary; queries over the whole arena and over
    the box around (4, 74) both hold its point and do not return it. *)
Theorem query_omits_particle :
  inside row74 (boundary row74_tree) 5%nat = true /\
  fst (insert row74 (build_quad_tree row74 WIDTH HEIGHT [0; 1; 2; 3; 4]%nat) 5%nat) = false /\
  inside row74 (mkRect 0 0 WIDTH HEIGHT) 5%nat = true /\
  query_acc row74 row74_tree (mkRect 0 0 WIDTH HEIGHT) [] = [0; 1; 2; 3; 4]%nat /\
  inside row74 box_of_4 5%nat = true /\
  query_acc row74 row74_tree box_of_4 [] = [1; 2; 3; 4]%nat.
Proof.
  unfold row74_tree, build_quad_tree, WIDTH, HEIGHT, box_of_4, QuadTree_init.
  cbn [fold_left].
  repeat row74_eval.
  repeat row74_query.
  repeat split; try row74_side; reflexivity.
Qed.

(** ** insert returns *)

(** A rectangle that holds a point is at least one unit wide. *)
Lemma collidepoint_width (r : Rect) (px py : R) :
  collidepoint r px py = true -> (0 < rect_w r)%Z.
Proof.
  intros H. apply collidepoint_true in H. lia.
Qed.

Section CallsReturn.

Variable ins : QuadTree -> ref -> option (bool * QuadTree).
Variable m : nat.

(** The calls on the children return, and leave children within the bound. *)
Hypothesis ins_returns :
  forall t p, (depth_bound t <= m)%nat ->
    exists b t', ins t p = Some (b, t') /\ (depth_bound t' <= m)%nat.

Lemma insert_children_returns (k : children) (p : ref) :
  kids_le m k ->
  exists b k', insert_children ins k p = Some (b, k') /\ kids_le m k'.
Proof.
  destruct k as [[[ne nw] se] sw]. intros (Hne & Hnw & Hse & Hsw).
  unfold insert_children.
  destruct (ins_returns _ p Hne) as (b1 & ne' & -> & Hne'); simpl.
  destruct b1; [exists true, (ne', nw, se, sw); simpl; auto |].
  destruct (ins_returns _ p Hnw) as (b2 & nw' & -> & Hnw'); simpl.
  destruct b2; [exists true, (ne', nw', se, sw); simpl; auto |].
  destruct (ins_returns _ p Hse) as (b3 & se' & -> & Hse'); simpl.
  destruct b3; [exists true, (ne', nw', se', sw); simpl; auto |].
  destruct (ins_returns _ p Hsw) as (b4 & sw' & -> & Hsw'); simpl.
  exists b4, (ne', nw', se', sw'); simpl; auto.
Qed.

Lemma redistribute_returns (existing : list ref) (k : children) (kept : list ref) :
  kids_le m k ->
  exists k' kept', redistribute ins existing k kept = Some (k', kept') /\ kids_le m k'.
Proof.
  revert k kept. induction existing as [| p rest IH]; intros k kept Hk; simpl.
  - exists k, kept. auto.
  - destruct (insert_children_returns _ p Hk) as (b & k' & -> & Hk'); simpl.
    apply IH, Hk'.
Qed.

End CallsReturn.

(** With fuel [n], [insert] returns on every node whose [depth_bound] is at
    most [n], and the node keeps its bound. *)
Lemma insert_fuel_returns (h : heap) (n : nat) :
  forall t p m, (depth_bound t <= m)%nat -> (m <= n)%nat ->
    exists b t', insert_fuel n h t p = Some (b, t') /\ (depth_bound t' <= m)%nat.
Proof.
  induction n as [| n IH]; intros t p m Ht Hm.
  - destruct t; simpl in Ht; lia.
  - destruct (inside h (boundary t) p) eqn:Hin;
      [| rewrite insert_fuel_outside by exact Hin; exists false, t; auto].
    assert (Hsub : forall t0 p0, (depth_bound t0 <= m - 1)%nat ->
              exists b t', insert_fuel n h t0 p0 = Some (b, t') /\
                           (depth_bound t' <= m - 1)%nat)
      by (intros t0 p0 H0; apply IH; [exact H0 | lia]).
    destruct t as [b ps cap | b ps cap ne nw se sw]; simpl in Ht, Hin.
    + destruct (Z.of_nat (length ps) <? cap)%Z eqn:Hroom.
      { rewrite insert_fuel_leaf_room by assumption.
        exists true, (Leaf b (ps ++ [p]) cap); auto. }
      rewrite insert_fuel_leaf_full by assumption.
      apply collidepoint_width in Hin.
      assert (Hhalf : (S (Z.to_nat (rect_w b / 2)) <= m - 1)%nat).
      { assert (rect_w b / 2 < rect_w b)%Z by (apply Z.div_lt; lia).
        assert (0 <= rect_w b / 2)%Z by (apply Z.div_pos; lia).
        lia. }
      assert (Hk0 : kids_le (m - 1) (subdivide b cap)) by (simpl; auto).
      destruct (redistribute_returns (insert_fuel n h) Hsub ps _ [] Hk0)
        as (k & kept & -> & Hk).
      cbn [bind].
      destruct (insert_children_returns (insert_fuel n h) Hsub _ p Hk)
        as (res & [[[ne nw] se] sw] & -> & Hk').
      cbn [bind].
      exists res, (Quad b kept cap ne nw se sw). split; [reflexivity |].
      simpl in *. lia.
    + rewrite insert_fuel_quad by assumption.
      assert (Hk0 : kids_le (m - 1) (ne, nw, se, sw)) by (simpl; lia).
      destruct (insert_children_returns (insert_fuel n h) Hsub _ p Hk0)
        as (res & [[[ne' nw'] se'] sw'] & -> & Hk').
      cbn [bind].
      exists res, (Quad b ps cap ne' nw' se' sw'). split; [reflexivity |].
      simpl in *. lia.
Qed.

(** The fuel that [depth_bound] gives is enough. *)
Lemma insert_as_fuel (h : heap) (t : QuadTree) (p : ref) :
  insert_fuel (depth_bound t) h t p = Some (insert h t p).
Proof.
  destruct (@insert_fuel_returns h (depth_bound t) t p (depth_bound t))
    as (b & t' & H & Hb); [lia | lia |].
  unfold insert. rewrite H. reflexivity.
Qed.

(** X1: [insert] returns: its calls never run deeper than [depth_bound], on
    any node and any particle, and the node that it leaves keeps the
    bound. *)
Theorem insert_fuel_enough (h : heap) (t : QuadTree) (p : ref) :
  insert_fuel (depth_bound t) h t p = Some (insert h t p) /\
  (depth_bound (snd (insert h t p)) <= depth_bound t)%nat.
Proof.
  split; [apply insert_as_fuel |].
  destruct (@insert_fuel_returns h (depth_bound t) t p (depth_bound t))
    as (b & t' & H & Hb); [lia | lia |].
  rewrite insert_as_fuel in H. injection H as ->. exact Hb.
Qed.

(** ** What the tree holds, and what a query returns *)

Lemma occ_app (r : ref) (l1 l2 : list ref) : occ r (l1 ++ l2) = (occ r l1 + occ r l2)%nat.
Proof. apply count_occ_app. Qed.

Lemma occ_cons (r p : ref) (l : list ref) : occ r (p :: l) = (hit r p + occ r l)%nat.
Proof. unfold occ, hit; simpl. destruct (Nat.eq_dec p r); reflexivity. Qed.

Lemma occ_nil (r : ref) : occ r [] = 0%nat.
Proof. reflexivity. Qed.

Lemma occ_In (r : ref) (l : list ref) : In r l <-> (0 < occ r l)%nat.
Proof. apply count_occ_In. Qed.

Lemma occ_filter (f : ref -> bool) (r : ref) (l : list ref) :
  occ r (filter f l) = if f r then occ r l else 0%nat.
Proof.
  induction l as [| p l IH]; cbn [filter].
  - destruct (f r); reflexivity.
  - rewrite (occ_cons r p l). destruct (f p) eqn:Hp.
    + rewrite occ_cons, IH. destruct (f r) eqn:Hr; [reflexivity |].
      unfold hit. destruct (Nat.eq_dec p r) as [-> | _]; [congruence | reflexivity].
    + rewrite IH. destruct (f r) eqn:Hr; [| reflexivity].
      unfold hit. destruct (Nat.eq_dec p r) as [-> | _]; [congruence | reflexivity].
Qed.

(** Two rectangles that hold the same point collide. *)
Lemma collidepoint_colliderect (a b : Rect) (px py : R) :
  collidepoint a px py = true -> collidepoint b px py = true ->
  colliderect a b = true.
Proof.
  intros Ha Hb.
  apply collidepoint_true in Ha. apply collidepoint_true in Hb.
  unfold colliderect.
  replace (rect_w a =? 0)%Z with false by (symmetry; apply Z.eqb_neq; lia).
  replace (rect_h a =? 0)%Z with false by (symmetry; apply Z.eqb_neq; lia).
  replace (rect_w b =? 0)%Z with false by (symmetry; apply Z.eqb_neq; lia).
  replace (rect_h b =? 0)%Z with false by (symmetry; apply Z.eqb_neq; lia).
  simpl. rewrite !andb_true_iff, !Z.ltb_lt. lia.
Qed.

(** A node whose boundary misses the range holds no particle of the range. *)
Lemma filter_missed (h : heap) (b range : Rect) (l : list ref) :
  Forall (fun r => inside h b r = true) l ->
  colliderect b range = false ->
  filter (inside h range) l = [].
Proof.
  intros Hall Hmiss. induction Hall as [| r l Hr _ IH]; simpl; [reflexivity |].
  destruct (inside h range r) eqn:Hin; [| exact IH].
  unfold inside in *.
  rewrite (collidepoint_colliderect _ _ _ _ Hr Hin) in Hmiss. discriminate.
Qed.

(** On a well placed tree, [query] returns the particles that the tree
    holds and whose point is in the range, in the order of [refs]. *)
Lemma query_acc_refs (h : heap) (range : Rect) (t : QuadTree) :
  well_placed h t ->
  query_acc h t range [] = filter (inside h range) (refs t).
Proof.
  induction t as [b ps cap | b ps cap ne IHne nw IHnw se IHse sw IHsw];
    intros [Hall Hkids].
  - destruct (colliderect b range) eqn:Hc.
    + rewrite query_acc_leaf by exact Hc. reflexivity.
    + rewrite query_acc_miss by exact Hc.
      symmetry. eapply filter_missed; [exact Hall | exact Hc].
  - destruct (colliderect b range) eqn:Hc.
    + destruct Hkids as (Hne & Hnw & Hse & Hsw).
      rewrite query_acc_quad by exact Hc.
      rewrite (query_acc_app h range sw), (query_acc_app h range se),
        (query_acc_app h range nw), (query_acc_app h range ne).
      rewrite IHne, IHnw, IHse, IHsw by assumption.
      simpl. rewrite !filter_app, <- !app_assoc. reflexivity.
    + rewrite query_acc_miss by exact Hc.
      symmetry. eapply filter_missed; [exact Hall | exact Hc].
Qed.

(** ** What insert does to the particles of a tree *)

Section CallsKeep.

Variable h : heap.
Variable ins : QuadTree -> ref -> option (bool * QuadTree).

Hypothesis ins_keeps :
  forall t p b t', ins t p = Some (b, t') ->
    holds_after b p (refs t) (refs t') /\ (well_placed h t -> well_placed h t').

Lemma insert_children_keeps (k : children) (p : ref) (b : bool) (k' : children) :
  insert_children ins k p = Some (b, k') ->
  holds_after b p (refs_kids k) (refs_kids k') /\ (kids_placed h k -> kids_placed h k').
Proof.
  destruct k as [[[ne nw] se] sw]. unfold insert_children, holds_after.
  destruct (ins ne p) as [[b1 ne'] |] eqn:E1; [| discriminate].
  destruct (ins_keeps E1) as [C1 W1]. cbn [bind].
  destruct b1.
  { intros [= <- <-]. split.
    - intros r. simpl. rewrite !occ_app, C1. lia.
    - simpl. tauto. }
  destruct (ins nw p) as [[b2 nw'] |] eqn:E2; [| discriminate].
  destruct (ins_keeps E2) as [C2 W2]. cbn [bind].
  destruct b2.
  { intros [= <- <-]. split.
    - intros r. simpl. rewrite !occ_app, C1, C2. lia.
    - simpl. tauto. }
  destruct (ins se p) as [[b3 se'] |] eqn:E3; [| discriminate].
  destruct (ins_keeps E3) as [C3 W3]. cbn [bind].
  destruct b3.
  { intros [= <- <-]. split.
    - intros r. simpl. rewrite !occ_app, C1, C2, C3. lia.
    - simpl. tauto. }
  destruct (ins sw p) as [[b4 sw'] |] eqn:E4; [| discriminate].
  destruct (ins_keeps E4) as [C4 W4]. cbn [bind].
  intros [= <- <-]. split.
  - intros r. simpl. rewrite !occ_app, C1, C2, C3, C4. lia.
  - simpl. tauto.
Qed.

Lemma redistribute_keeps (existing : list ref) :
  forall k kept k' kept',
    redistribute ins existing k kept = Some (k', kept') ->
    (forall r, (occ r kept' + occ r (refs_kids k') =
                occ r kept + occ r existing + occ r (refs_kids k))%nat) /\
    (kids_placed h k -> kids_placed h k').
Proof.
  induction existing as [| p rest IH]; intros k kept k' kept'; cbn [redistribute].
  - intros [= <- <-]. split; [intros r; rewrite occ_nil; lia | tauto].
  - destruct (insert_children ins k p) as [[b k1] |] eqn:E; [| discriminate].
    cbn [bind]. intros Hrest.
    destruct (@insert_children_keeps _ _ _ _ E) as [C W].
    destruct (IH _ _ _ _ Hrest) as [C' W'].
    split; [| tauto].
    intros r. rewrite C', (C r), occ_cons.
    destruct b; rewrite ?occ_app, ?occ_cons, ?occ_nil; lia.
Qed.

End CallsKeep.

(** [insert] keeps the boundary and the particles of the node, adds the new
    particle once when it returns [True] and not at all when it returns
    [False], and leaves a well placed tree well placed. *)
Lemma insert_fuel_keeps (h : heap) (n : nat) :
  forall t p b t', insert_fuel n h t p = Some (b, t') ->
    boundary t' = boundary t /\
    holds_after b p (refs t) (refs t') /\
    (well_placed h t -> well_placed h t').
Proof.
  induction n as [| n IH]; intros t p b t'; [discriminate |].
  assert (Hsub : forall t0 p0 b0 t0', insert_fuel n h t0 p0 = Some (b0, t0') ->
            holds_after b0 p0 (refs t0) (refs t0') /\
            (well_placed h t0 -> well_placed h t0'))
    by (intros t0 p0 b0 t0' H0; apply IH in H0; tauto).
  destruct (inside h (boundary t) p) eqn:Hin.
  2:{ rewrite insert_fuel_outside by exact Hin. intros [= <- <-].
      split; [reflexivity |]. split; [intros r; lia | tauto]. }
  destruct t as [bd ps cap | bd ps cap ne nw se sw]; cbn [boundary] in Hin.
  - destruct (Z.of_nat (length ps) <? cap)%Z eqn:Hroom.
    { rewrite insert_fuel_leaf_room by assumption. intros [= <- <-].
      split; [reflexivity |]. split.
      - intros r. simpl. rewrite occ_app. unfold occ at 3; simpl.
        unfold hit. destruct (Nat.eq_dec p r); reflexivity.
      - simpl. intros [Hall _]. split; [| exact I].
        apply Forall_app. split; [exact Hall | repeat constructor; exact Hin]. }
    rewrite insert_fuel_leaf_full by assumption.
    destruct (redistribute (insert_fuel n h) ps (subdivide bd cap) [])
      as [[k kept] |] eqn:Ered; [| discriminate].
    cbn [bind].
    destruct (insert_children (insert_fuel n h) k p)
      as [[res [[[ne nw] se] sw]] |] eqn:Ech; [| discriminate].
    cbn [bind]. intros [= <- <-].
    destruct (@redistribute_keeps h _ Hsub _ _ _ _ _ Ered) as [Cr Wr].
    destruct (@insert_children_keeps h _ Hsub _ _ _ _ Ech) as [Cc Wc].
    assert (Hcount : holds_after res p ps (kept ++ refs_kids (ne, nw, se, sw))).
    { intros r. rewrite occ_app, (Cc r).
      specialize (Cr r). unfold subdivide, refs_kids at 2 in Cr.
      simpl in Cr. lia. }
    split; [reflexivity |]. split; [exact Hcount |].
    simpl. intros [Hall _]. split.
    + apply Forall_forall. intros r Hr.
      apply occ_In in Hr.
      change (0 < occ r (kept ++ refs_kids (ne, nw, se, sw)))%nat in Hr.
      rewrite (Hcount r) in Hr.
      destruct (occ r ps) eqn:Hps.
      * destruct res; [| lia]. unfold hit in Hr.
        destruct (Nat.eq_dec p r) as [<- | _]; [exact Hin | lia].
      * assert (Hr' : In r ps) by (apply occ_In; lia).
        exact (proj1 (Forall_forall _ _) Hall r Hr').
    + apply Wc, Wr. simpl. repeat split; constructor.
  - rewrite insert_fuel_quad by assumption.
    destruct (insert_children (insert_fuel n h) (ne, nw, se, sw) p)
      as [[res [[[ne' nw'] se'] sw']] |] eqn:Ech; [| discriminate].
    cbn [bind]. intros [= <- <-].
    destruct (@insert_children_keeps h _ Hsub _ _ _ _ Ech) as [Cc Wc].
    assert (Hcount : holds_after res p (ps ++ refs_kids (ne, nw, se, sw))
                                 (ps ++ refs_kids (ne', nw', se', sw'))).
    { intros r. rewrite !occ_app, (Cc r). lia. }
    split; [reflexivity |]. split; [exact Hcount |].
    simpl. intros [Hall Hk]. split; [| apply Wc; exact Hk].
    apply Forall_forall. intros r Hr.
    apply occ_In in Hr. change (0 < occ r (ps ++ refs_kids (ne', nw', se', sw')))%nat in Hr.
    rewrite (Hcount r) in Hr.
    destruct (occ r (ps ++ refs_kids (ne, nw, se, sw))) eqn:Hps.
    + destruct res; [| lia]. unfold hit in Hr.
      destruct (Nat.eq_dec p r) as [<- | _]; [exact Hin | lia].
    + assert (Hr' : In r (ps ++ refs_kids (ne, nw, se, sw))) by (apply occ_In; lia).
      exact (proj1 (Forall_forall _ _) Hall r Hr').
Qed.

(** [insert], with the fuel of [depth_bound]. *)
Lemma insert_keeps (h : heap) (t : QuadTree) (p : ref) :
  boundary (snd (insert h t p)) = boundary t /\
  holds_after (fst (insert h t p)) p (refs t) (refs (snd (insert h t p))) /\
  (well_placed h t -> well_placed h (snd (insert h t p))).
Proof.
  apply (@insert_fuel_keeps h (depth_bound t)).
  rewrite insert_as_fuel. destruct (insert h t p); reflexivity.
Qed.

Lemma insert_all_keeps (h : heap) (ps : list ref) :
  forall t, well_placed h t ->
    well_placed h (insert_all h ps t) /\
    (forall r, ~ In r ps -> occ r (refs (insert_all h ps t)) = occ r (refs t)) /\
    (forall r, occ r (refs (insert_all h ps t)) <= occ r (refs t) + occ r ps)%nat.
Proof.
  induction ps as [| p ps IH]; intros t Ht.
  - split; [exact Ht |]. split; [reflexivity |]. intros r. rewrite occ_nil. simpl. lia.
  - destruct (@insert_keeps h t p) as (_ & Hc & Hw).
    destruct (IH _ (Hw Ht)) as (IHw & IHsame & IHle).
    change (insert_all h (p :: ps) t) with (insert_all h ps (snd (insert h t p))).
    split; [exact IHw |]. split.
    + intros r Hr. rewrite IHsame by (intros Hin; apply Hr; right; exact Hin).
      rewrite (Hc r). unfold hit.
      destruct (Nat.eq_dec p r) as [-> | _]; [exfalso; apply Hr; left; reflexivity |].
      destruct (fst (insert h t p)); lia.
    + intros r. specialize (IHle r). rewrite (Hc r) in IHle. rewrite occ_cons.
      destruct (fst (insert h t p)); lia.
Qed.

Lemma build_quad_tree_insert_all (h : heap) (width height : Z) (ps : list ref) :
  build_quad_tree h width height ps =
  insert_all h ps (QuadTree_init (mkRect 0 0 width height) 5).
Proof. reflexivity. Qed.

Lemma insert_all_app (h : heap) (ps qs : list ref) (t : QuadTree) :
  insert_all h (ps ++ qs) t = insert_all h qs (insert_all h ps t).
Proof. apply fold_left_app. Qed.

Lemma QuadTree_init_well_placed (h : heap) (b : Rect) (cap : Z) :
  well_placed h (QuadTree_init b cap).
Proof. simpl. split; constructor. Qed.

(** ** Queries on the solver's tree *)

(** [query] returns particles that pass the point test of the range. *)
Lemma query_acc_inside (h : heap) (t : QuadTree) (range : Rect) :
  Forall (fun r => inside h range r = true) (query_acc h t range []).
Proof.
  assert (Hf : forall ps, Forall (fun r => inside h range r = true)
                                 (filter (inside h range) ps)).
  { intros ps. apply Forall_forall. intros r Hr. apply filter_In in Hr. tauto. }
  induction t as [b ps cap | b ps cap ne IHne nw IHnw se IHse sw IHsw].
  - destruct (colliderect b range) eqn:Hc.
    + rewrite query_acc_leaf by exact Hc. apply Hf.
    + rewrite query_acc_miss by exact Hc. constructor.
  - destruct (colliderect b range) eqn:Hc.
    + rewrite query_acc_quad by exact Hc.
      rewrite (query_acc_app h range sw), (query_acc_app h range se),
        (query_acc_app h range nw), (query_acc_app h range ne).
      cbn [app]. rewrite !Forall_app.
      repeat split; first [assumption | apply Hf].
    + rewrite query_acc_miss by exact Hc. constructor.
Qed.

(** [query] returns particles of the tree only. *)
Lemma query_acc_subset (h : heap) (range : Rect) (t : QuadTree) (r : ref) :
  In r (query_acc h t range []) -> In r (refs t).
Proof.
  induction t as [b ps cap | b ps cap ne IHne nw IHnw se IHse sw IHsw].
  - destruct (colliderect b range) eqn:Hc.
    + rewrite query_acc_leaf by exact Hc. simpl. intros Hr.
      apply filter_In in Hr. tauto.
    + rewrite query_acc_miss by exact Hc. intros [].
  - destruct (colliderect b range) eqn:Hc.
    + rewrite query_acc_quad by exact Hc.
      rewrite (query_acc_app h range sw), (query_acc_app h range se),
        (query_acc_app h range nw), (query_acc_app h range ne).
      cbn [app refs]. rewrite !in_app_iff, filter_In. tauto.
    + rewrite query_acc_miss by exact Hc. intros [].
Qed.

(** The particle at (-5.5, -7) passes the point test of
    [Rect(-5, -10, 5, 5)]: its coordinates are cut to (-5, -7). *)
Lemma inside_left_of_range : inside left_of_range range_m5 0%nat = true.
Proof.
  unfold inside, left_of_range, range_m5; simpl.
  rewrite collidepoint_py_int.
  rewrite (@py_int_unique (-5) (-5.5)) by (intros; lra).
  rewrite (@py_int_unique (-7) (-7)) by (intros; lra).
  reflexivity.
Qed.

(** X2: containment, up to the cut of the point test.  Whatever the tree,
    every particle that [query] returns is one that the tree holds and
    passes the point test of the range.  The test is made on the
    coordinates cut to integers, towards zero, so the point itself is never
    at or beyond the right and bottom edges of the range, and is less than
    one unit to the left of or above it; on an axis where its coordinate is
    not negative it is inside the range.  The particle at (-5.5, -7) is
    returned for the range [Rect(-5, -10, 5, 5)], to the left of which it
    is. *)
Theorem query_returns_inside (h : heap) (t : QuadTree) (range : Rect) :
  Forall (fun r =>
            In r (refs t) /\
            inside h range r = true /\
            (IZR (rect_x range) - 1 < x (h r) < IZR (rect_x range + rect_w range) /\
             IZR (rect_y range) - 1 < y (h r) < IZR (rect_y range + rect_h range)) /\
            (0 <= x (h r) -> IZR (rect_x range) <= x (h r)) /\
            (0 <= y (h r) -> IZR (rect_y range) <= y (h r)))
         (query_acc h t range []) /\
  (x (left_of_range 0%nat) < IZR (rect_x range_m5) /\
   query_acc left_of_range node_m10 range_m5 [] = [0%nat]).
Proof.
  split.
  2:{ split; [unfold left_of_range, range_m5; simpl; lra |].
      unfold node_m10. rewrite query_acc_leaf by reflexivity.
      cbn [filter app]. rewrite inside_left_of_range. reflexivity. }
  apply Forall_forall. intros r Hr.
  split; [eapply query_acc_subset; exact Hr |].
  pose proof (proj1 (Forall_forall _ _) (query_acc_inside h t range) r Hr) as Hin.
  split; [exact Hin |].
  unfold inside in Hin. apply collidepoint_true in Hin. destruct Hin as [Hx Hy].
  apply py_int_span in Hx. apply py_int_span in Hy. tauto.
Qed.

(** X3: completeness, for the particles that [insert] accepted.  In the tree that
    [set_up_quad_tree] builds of distinct particles, a query whose range
    passes a particle in its point test (on the coordinates cut to
    integers, as in [insert]) returns it exactly once when [insert]
    returned [True] for it, and not at all when [insert] returned [False]. *)
Theorem query_returns_accepted_once
        (h : heap) (width height : Z) (ps qs : list ref) (p : ref) (range : Rect) :
  NoDup (ps ++ p :: qs) ->
  inside h range p = true ->
  occ p (query_acc h (build_quad_tree h width height (ps ++ p :: qs)) range []) =
  if fst (insert h (build_quad_tree h width height ps) p) then 1%nat else 0%nat.
Proof.
  intros Hnd Hin.
  rewrite !build_quad_tree_insert_all, insert_all_app.
  set (t0 := QuadTree_init (mkRect 0 0 width height) 5).
  change (insert_all h (p :: qs) (insert_all h ps t0))
    with (insert_all h qs (snd (insert h (insert_all h ps t0) p))).
  destruct (@insert_all_keeps h ps t0 (QuadTree_init_well_placed h _ _)) as (W1 & _ & L1).
  destruct (@insert_keeps h (insert_all h ps t0) p) as (_ & C2 & W2).
  destruct (@insert_all_keeps h qs _ (W2 W1)) as (W3 & S3 & _).
  assert (Hps : ~ In p ps).
  { intros Hp. apply NoDup_remove_2 in Hnd. apply Hnd, in_or_app. left; exact Hp. }
  assert (Hqs : ~ In p qs).
  { intros Hq. apply NoDup_remove_2 in Hnd. apply Hnd, in_or_app. right; exact Hq. }
  rewrite (@query_acc_refs h range _ W3), occ_filter, Hin, (S3 p Hqs), (C2 p).
  assert (H0 : occ p (refs (insert_all h ps t0)) = 0%nat).
  { specialize (L1 p). unfold t0 in L1 at 2. simpl in L1.
    assert (occ p ps = 0%nat) by (apply count_occ_not_In, Hps). lia. }
  rewrite H0. unfold hit. destruct (Nat.eq_dec p p) as [_ | Hne]; [| contradiction].
  destruct (fst (insert h (insert_all h ps t0) p)); reflexivity.
Qed.

Lemma query_returns_accepted_once_witness :
  occ 5%nat
      (query_acc row74
         (build_quad_tree row74 WIDTH HEIGHT ([0; 1; 2; 3; 4]%nat ++ 5%nat :: []))
         box_of_4 []) =
  if fst (insert row74 (build_quad_tree row74 WIDTH HEIGHT [0; 1; 2; 3; 4]%nat) 5%nat)
  then 1%nat else 0%nat.
Proof.
  apply (@query_returns_accepted_once row74 WIDTH HEIGHT [0; 1; 2; 3; 4]%nat [] 5%nat box_of_4).
  - repeat (constructor; [simpl; intuition discriminate |]). constructor.
  - row74_side.
Defined.

(** ** subdivide on even sizes *)

Lemma collidepoint_spans (r : Rect) (px py : R) :
  collidepoint r px py =
  in_span (rect_x r) (rect_w r) (py_int px) && in_span (rect_y r) (rect_h r) (py_int py).
Proof. unfold collidepoint, in_span. cbv zeta. rewrite !andb_assoc. reflexivity. Qed.

(** Case analysis on the comparisons of integers of a goal. *)
Ltac case_cmpZ :=
  repeat match goal with
         | |- context [(?a <=? ?b)%Z] => destruct (Z.leb_spec a b)
         | |- context [(?a <? ?b)%Z] => destruct (Z.ltb_spec a b)
         end.

(** An even span is the disjoint union of its two halves. *)
Lemma in_span_halves (a w p : Z) :
  Z.even w = true ->
  in_span a w p = in_span a (w / 2) p || in_span (a + w / 2) (w / 2) p /\
  in_span a (w / 2) p && in_span (a + w / 2) (w / 2) p = false.
Proof.
  intros Hw. apply Z.even_spec in Hw. destruct Hw as [k ->].
  replace (2 * k / 2)%Z with k by (symmetry; rewrite Z.mul_comm; apply Z.div_mul; lia).
  unfold in_span. case_cmpZ; simpl; split; first [reflexivity | lia].
Qed.

(** X4: when the width and the height of a node are even, the four rectangles
    of [subdivide] partition the node's rectangle: a point of the node is in
    exactly one of them, and a point outside the node is in none. *)
Theorem subdivide_partitions_even (b : Rect) (px py : R) :
  Z.even (rect_w b) = true ->
  Z.even (rect_h b) = true ->
  let '(ne, nw, se, sw) := subdivide_rects b in
  (count (collidepoint ne px py) + count (collidepoint nw px py) +
   count (collidepoint se px py) + count (collidepoint sw px py))%nat =
  count (collidepoint b px py).
Proof.
  intros Hw Hh. unfold subdivide_rects.
  rewrite !collidepoint_spans. cbn [rect_x rect_y rect_w rect_h].
  destruct (@in_span_halves (rect_x b) (rect_w b) (py_int px) Hw) as [-> Hx].
  destruct (@in_span_halves (rect_y b) (rect_h b) (py_int py) Hh) as [-> Hy].
  destruct (in_span (rect_x b) (rect_w b / 2) (py_int px)),
    (in_span (rect_x b + rect_w b / 2) (rect_w b / 2) (py_int px)),
    (in_span (rect_y b) (rect_h b / 2) (py_int py)),
    (in_span (rect_y b + rect_h b / 2) (rect_h b / 2) (py_int py));
    simpl in *; first [discriminate | reflexivity].
Qed.

Lemma subdivide_partitions_even_witness :
  let '(ne, nw, se, sw) := subdivide_rects (mkRect 0 0 800 600) in
  (count (collidepoint ne 5 74) + count (collidepoint nw 5 74) +
   count (collidepoint se 5 74) + count (collidepoint sw 5 74))%nat =
  count (collidepoint (mkRect 0 0 800 600) 5 74).
Proof.
  apply (@subdivide_partitions_even (mkRect 0 0 800 600) 5 74); reflexivity.
Defined.

(** * Further properties *)

(** ** Particle: velocity through the previous position *)

Lemma Particle_eq (p q : Particle) :
  x p = x q -> y p = y q -> radius p = radius q -> color p = color q ->
  last_pos p = last_pos q -> accel p = accel q -> mass p = mass q -> p = q.
Proof.
  destruct p, q; simpl. intros -> -> -> -> -> -> ->. reflexivity.
Qed.

(** X5: [setVelocity] and [getVelocity] round trip, in real arithmetic.  After
    [setVelocity(vx, vy, dt)] the velocity read back is [(vx * dt, vy * dt)],
    which is [(vx, vy)] for the default [dt = 1], and the position is as
    before; setting the velocity that was read puts the previous position
    back.  (In binary64 the differences round, and the round trip can fail
    in the last digit.) *)
Theorem setVelocity_getVelocity (p : Particle) (vx vy dt : R) :
  getVelocity (setVelocity p vx vy dt) = (vx * dt, vy * dt) /\
  getVelocity (setVelocity p vx vy 1) = (vx, vy) /\
  (x (setVelocity p vx vy dt), y (setVelocity p vx vy dt)) = (x p, y p) /\
  last_pos (setVelocity p (fst (getVelocity p)) (snd (getVelocity p)) 1) = last_pos p.
Proof.
  unfold getVelocity, setVelocity; simpl.
  repeat split; try (apply pair_eq; ring).
  destruct (last_pos p) as [lx ly]; simpl. apply pair_eq; ring.
Qed.

(** X6: in real arithmetic, [addVelocity] adds to the velocity: after
    [addVelocity(vx, vy, dt)] the velocity is the old one plus
    [(vx * dt, vy * dt)], whatever it was; two calls add up, in either
    order.  (In binary64 the two orders can differ by a rounding.) *)
Theorem addVelocity_adds (p : Particle) (vx vy dt vx' vy' dt' : R) :
  getVelocity (addVelocity p vx vy dt) =
    (fst (getVelocity p) + vx * dt, snd (getVelocity p) + vy * dt) /\
  getVelocity (addVelocity (addVelocity p vx vy dt) vx' vy' dt') =
    (fst (getVelocity p) + vx * dt + vx' * dt',
     snd (getVelocity p) + vy * dt + vy' * dt') /\
  getVelocity (addVelocity (addVelocity p vx vy dt) vx' vy' dt') =
    getVelocity (addVelocity (addVelocity p vx' vy' dt') vx vy dt).
Proof.
  unfold getVelocity, addVelocity; simpl.
  repeat split; apply pair_eq; ring.
Qed.

(** The velocity after [update]: the old one, damped by
    [1 - 0.5 * dt^2], plus the acceleration times [dt^2]. *)
Lemma update_velocity (p : Particle) (dt : R) :
  getVelocity (update p dt) =
    ((1 - 0.5 * dt ^ 2) * fst (getVelocity p) + fst (accel p) * dt ^ 2,
     (1 - 0.5 * dt ^ 2) * snd (getVelocity p) + snd (accel p) * dt ^ 2).
Proof.
  unfold getVelocity, update, VELOCITY_DAMPENING; simpl.
  apply pair_eq; ring.
Qed.

Lemma Rabs_scale_le (k v : R) : -1 <= k <= 1 -> Rabs (k * v) <= Rabs v.
Proof.
  intros Hk. rewrite Rabs_mult.
  assert (Rabs k <= 1) by (apply Rabs_le; lra).
  assert (0 <= Rabs v) by apply Rabs_pos.
  nra.
Qed.

(** X7: in real arithmetic, without accumulated acceleration, [update(dt)]
    never speeds a particle up, on either axis, as long as [dt^2 <= 4]: it
    multiplies the velocity by [1 - 0.5 * dt^2].  (In binary64 the new
    velocity can exceed the old one by a rounding.) *)
Theorem update_never_speeds_up (p : Particle) (dt : R) :
  accel p = (0, 0) ->
  dt * dt <= 4 ->
  Rabs (fst (getVelocity (update p dt))) <= Rabs (fst (getVelocity p)) /\
  Rabs (snd (getVelocity (update p dt))) <= Rabs (snd (getVelocity p)).
Proof.
  intros Ha Hdt. rewrite update_velocity, Ha. simpl.
  assert (Hk : -1 <= 1 - 0.5 * (dt * (dt * 1)) <= 1) by nra.
  split;
    match goal with
    | |- Rabs (?k * ?v + ?z) <= _ => replace (k * v + z) with (k * v) by ring
    end;
    apply Rabs_scale_le, Hk.
Qed.

Lemma update_never_speeds_up_witness :
  Rabs (fst (getVelocity (update crossing_left 0.02)))
    <= Rabs (fst (getVelocity crossing_left)) /\
  Rabs (snd (getVelocity (update crossing_left 0.02)))
    <= Rabs (snd (getVelocity crossing_left)).
Proof.
  apply (@update_never_speeds_up crossing_left 0.02).
  - reflexivity.
  - lra.
Defined.


(** X9: in real arithmetic, [accelerate] accumulates: two calls before an
    [update] count as one call with the sum, and their order does not
    matter.  (In binary64 the two orders can differ by a rounding.) *)
Theorem accelerate_accumulates (p : Particle) (ax ay bx by_ dt : R) :
  update (accelerate (accelerate p ax ay) bx by_) dt =
    update (accelerate p (ax + bx) (ay + by_)) dt /\
  update (accelerate (accelerate p ax ay) bx by_) dt =
    update (accelerate (accelerate p bx by_) ax ay) dt.
Proof.
  unfold update, accelerate; simpl.
  split; apply Particle_eq; simpl; try reflexivity; ring.
Qed.

(** ** resolveCollision: what a correction achieves *)

(** The two branches of [resolveCollision]. *)
Lemma resolveCollision_hit (p1 p2 : Particle) :
  overlapping p1 p2 ->
  let d := sqrt (dist2 p1 p2) in
  let delta := 0.5 * (min_dist p1 p2 - d) in
  resolveCollision p1 p2 =
    (set_y (set_x p1 (x p1 - (x p2 - x p1) / d * delta)) (y p1 - (y p2 - y p1) / d * delta),
     set_y (set_x p2 (x p2 + (x p2 - x p1) / d * delta)) (y p2 + (y p2 - y p1) / d * delta)).
Proof.
  intros Hc d delta. unfold resolveCollision.
  fold (dist2 p1 p2) (min_dist p1 p2) d.
  rewrite (proj2 (resolve_test _ _) Hc).
  unfold delta, set_x, set_y; simpl.
  replace (1.0 * 0.5) with 0.5 by lra. reflexivity.
Qed.

Lemma resolveCollision_miss (p1 p2 : Particle) :
  ~ overlapping p1 p2 -> resolveCollision p1 p2 = (p1, p2).
Proof.
  intros Hc. unfold resolveCollision.
  fold (dist2 p1 p2) (min_dist p1 p2).
  destruct (Rltb _ _ && Rgtb _ _) eqn:E; [| reflexivity].
  apply resolve_test in E. contradiction.
Qed.

Lemma overlapping_dec (p1 p2 : Particle) : overlapping p1 p2 \/ ~ overlapping p1 p2.
Proof.
  unfold overlapping.
  destruct (Rlt_dec eps (dist2 p1 p2)); destruct (Rlt_dec (dist2 p1 p2) (min_dist p1 p2 * min_dist p1 p2));
    first [left; lra | right; lra].
Qed.

(** After a hit the centres are as far apart as the radii add up to. *)
Lemma resolveCollision_hit_dist2 (p1 p2 : Particle) :
  overlapping p1 p2 ->
  dist2 (fst (resolveCollision p1 p2)) (snd (resolveCollision p1 p2)) =
  min_dist p1 p2 * min_dist p1 p2.
Proof.
  intros Hc. rewrite (resolveCollision_hit Hc). unfold dist2 at 1; simpl.
  replace 0.5 with (/ 2) by lra.
  assert (Hpos : 0 < dist2 p1 p2) by (destruct Hc as [He _]; unfold eps in He; lra).
  assert (Hd : 0 < sqrt (dist2 p1 p2)) by (apply sqrt_lt_R0, Hpos).
  assert (Hdd : sqrt (dist2 p1 p2) * sqrt (dist2 p1 p2) = dist2 p1 p2)
    by (apply sqrt_def; lra).
  set (d := sqrt (dist2 p1 p2)) in *.
  set (dx := x p2 - x p1). set (dy := y p2 - y p1).
  assert (Hxy : dx * dx + dy * dy = d * d) by (rewrite Hdd; reflexivity).
  set (m := min_dist p1 p2).
  replace (x p2 + dx / d * (/ 2 * (m - d)) - (x p1 - dx / d * (/ 2 * (m - d))))
    with (dx / d * m) by (unfold dx; field; lra).
  replace (y p2 + dy / d * (/ 2 * (m - d)) - (y p1 - dy / d * (/ 2 * (m - d))))
    with (dy / d * m) by (unfold dy; field; lra).
  replace (dx / d * m * (dx / d * m) + dy / d * m * (dy / d * m))
    with ((dx * dx + dy * dy) / (d * d) * (m * m)) by (field; lra).
  rewrite Hxy. field. lra.
Qed.

(** X10: [resolveCollision] keeps the midpoint of the two centres, and
    when it moves the particles it leaves the centres exactly
    [radius_p + radius_q] apart: the pair no longer overlaps. *)
Theorem resolveCollision_separates (p1 p2 : Particle) :
  let p1' := fst (resolveCollision p1 p2) in
  let p2' := snd (resolveCollision p1 p2) in
  x p1' + x p2' = x p1 + x p2 /\
  y p1' + y p2' = y p1 + y p2 /\
  (overlapping p1 p2 ->
   dist2 p1' p2' = min_dist p1 p2 * min_dist p1 p2 /\
   ~ overlapping p1' p2' /\
   (0 <= min_dist p1 p2 -> sqrt (dist2 p1' p2') = min_dist p1 p2)).
Proof.
  simpl. destruct (overlapping_dec p1 p2) as [Hc | Hc].
  - pose proof (resolveCollision_hit_dist2 Hc) as Hd2.
    rewrite (resolveCollision_hit Hc) in *. simpl in *.
    split; [lra |]. split; [lra |]. intros _.
    split; [exact Hd2 |]. split.
    + unfold overlapping. rewrite Hd2. unfold min_dist; simpl. lra.
    + intros Hm. rewrite Hd2. apply sqrt_square, Hm.
  - rewrite (resolveCollision_miss Hc). simpl.
    split; [reflexivity |]. split; [reflexivity |]. intros H. contradiction.
Qed.

(** X11: [resolveCollision] is idempotent: on the pair that it leaves, a
    second call changes nothing. *)
Theorem resolveCollision_idempotent (p1 p2 : Particle) :
  resolveCollision (fst (resolveCollision p1 p2)) (snd (resolveCollision p1 p2)) =
  resolveCollision p1 p2.
Proof.
  destruct (overlapping_dec p1 p2) as [Hc | Hc].
  - pose proof (resolveCollision_hit_dist2 Hc) as Hd2.
    rewrite resolveCollision_miss; [destruct (resolveCollision p1 p2); reflexivity |].
    unfold overlapping. rewrite Hd2.
    rewrite (resolveCollision_hit Hc). unfold min_dist; simpl. lra.
  - rewrite (resolveCollision_miss Hc). simpl. apply resolveCollision_miss, Hc.
Qed.

(** X12: [resolveCollision] treats its two arguments alike: with the
    arguments swapped, each particle ends where it ends otherwise. *)
Theorem resolveCollision_symmetric (p1 p2 : Particle) :
  resolveCollision p2 p1 = (snd (resolveCollision p1 p2), fst (resolveCollision p1 p2)).
Proof.
  assert (Hd : dist2 p2 p1 = dist2 p1 p2) by (unfold dist2; ring).
  assert (Hm : min_dist p2 p1 = min_dist p1 p2) by (unfold min_dist; ring).
  destruct (overlapping_dec p1 p2) as [Hc | Hc].
  - assert (Hc' : overlapping p2 p1) by (unfold overlapping; rewrite Hd, Hm; exact Hc).
    rewrite (resolveCollision_hit Hc), (resolveCollision_hit Hc'), Hd, Hm. simpl.
    assert (Hpos : 0 < dist2 p1 p2) by (destruct Hc as [He _]; unfold eps in He; lra).
    assert (Hs : 0 < sqrt (dist2 p1 p2)) by (apply sqrt_lt_R0, Hpos).
    replace 0.5 with (/ 2) by lra.
    apply pair_eq; apply Particle_eq; simpl; try reflexivity; field; lra.
  - assert (Hc' : ~ overlapping p2 p1) by (unfold overlapping; rewrite Hd, Hm; exact Hc).
    rewrite (resolveCollision_miss Hc), (resolveCollision_miss Hc'). reflexivity.
Qed.

(** ** wall_collisions: all four walls *)

(** A particle whose edges are inside the walls is left as it is. *)
Lemma wall_collide_fixed (width height : Z) (p : Particle) :
  radius p <= x p <= IZR width - radius p ->
  radius p <= y p <= IZR height - radius p ->
  wall_collide width height p = p.
Proof.
  intros Hx Hy. unfold wall_collide, Rgtb.
  rewrite (@Rltb_ge (x p - radius p) 0) by lra.
  rewrite (@Rltb_ge (IZR width) (x p + radius p)) by lra.
  rewrite (@Rltb_ge (y p - radius p) 0) by lra.
  rewrite (@Rltb_ge (IZR height) (y p + radius p)) by lra.
  reflexivity.
Qed.

(** X13: in an arena that is at least as wide and as high as the particle,
    wall resolution is idempotent, and a particle whose edges are inside the
    walls keeps its position and its velocity. *)
Theorem wall_collide_idempotent (width height : Z) (p : Particle) :
  2 * radius p <= IZR width ->
  2 * radius p <= IZR height ->
  wall_collide width height (wall_collide width height p) = wall_collide width height p /\
  (radius p <= x p <= IZR width - radius p ->
   radius p <= y p <= IZR height - radius p ->
   wall_collide width height p = p).
Proof.
  intros Hw Hh. split; [| apply wall_collide_fixed].
  destruct (wall_collide_inside width height p Hw Hh) as [Hx Hy].
  apply wall_collide_fixed; assumption.
Qed.

Lemma wall_collide_idempotent_witness :
  wall_collide WIDTH HEIGHT (wall_collide WIDTH HEIGHT crossing_left) =
    wall_collide WIDTH HEIGHT crossing_left /\
  (radius crossing_left <= x crossing_left <= IZR WIDTH - radius crossing_left ->
   radius crossing_left <= y crossing_left <= IZR HEIGHT - radius crossing_left ->
   wall_collide WIDTH HEIGHT crossing_left = crossing_left).
Proof.
  apply (@wall_collide_idempotent WIDTH HEIGHT crossing_left);
    unfold WIDTH, HEIGHT; simpl; lra.
Defined.


(** ** QuadTree: rejected points, kept particles, capacity *)

Lemma insert_outside (h : heap) (t : QuadTree) (p : ref) :
  inside h (boundary t) p = false -> insert h t p = (false, t).
Proof.
  intros Hout. unfold insert.
  destruct t; cbn [depth_bound]; rewrite insert_fuel_outside by exact Hout; reflexivity.
Qed.

Lemma collidepoint_height (r : Rect) (px py : R) :
  collidepoint r px py = true -> (0 < rect_h r)%Z.
Proof.
  intros H. apply collidepoint_true in H. lia.
Qed.

(** X15: what [insert] rejects.  Its point test is made on the coordinates
    cut to integers, towards zero.  A point that is a whole unit or more to
    the left of or above the node's boundary, or at or beyond its right or
    bottom edge, is rejected: [insert] returns [False] and leaves the node
    as it is, whatever the node holds; and a node whose width or height is
    zero or negative rejects every point.  A point that is less than one
    unit to the left of or above a boundary at the origin is not rejected:
    a leaf with room on [Rect(0, 0, w, h)] takes every particle with
    [-1 < x < w] and [-1 < y < h]. *)
Theorem insert_rejects_outside (h : heap) (t : QuadTree) (p : ref) :
  let b := boundary t in
  (x (h p) <= IZR (rect_x b) - 1 \/ IZR (rect_x b + rect_w b) <= x (h p) \/
   y (h p) <= IZR (rect_y b) - 1 \/ IZR (rect_y b + rect_h b) <= y (h p) ->
   insert h t p = (false, t)) /\
  ((rect_w b <= 0)%Z \/ (rect_h b <= 0)%Z -> insert h t p = (false, t)) /\
  (forall (w hh : Z) (ps : list ref) (cap : Z),
     t = Leaf (mkRect 0 0 w hh) ps cap ->
     (0 < w)%Z -> (0 < hh)%Z -> (Z.of_nat (length ps) < cap)%Z ->
     -1 < x (h p) < IZR w -> -1 < y (h p) < IZR hh ->
     insert h t p = (true, Leaf (mkRect 0 0 w hh) (ps ++ [p]) cap)).
Proof.
  intros b. split; [| split].
  - intros Hout. apply insert_outside.
    destruct (inside h (boundary t) p) eqn:Hin; [| reflexivity].
    unfold inside in Hin. apply collidepoint_true in Hin. fold b in Hin.
    destruct Hin as [Hx Hy].
    destruct Hout as [Ho | [Ho | [Ho | Ho]]].
    + apply py_int_lt in Ho. lia.
    + apply py_int_ge in Ho. lia.
    + apply py_int_lt in Ho. lia.
    + apply py_int_ge in Ho. lia.
  - intros Hdeg. apply insert_outside.
    destruct (inside h (boundary t) p) eqn:Hin; [| reflexivity].
    unfold inside in Hin.
    pose proof (collidepoint_width _ _ _ Hin). pose proof (collidepoint_height _ _ _ Hin).
    fold b in H, H0. lia.
  - intros w hh ps cap -> Hw Hh Hroom Hx Hy.
    unfold insert. cbn [depth_bound].
    rewrite insert_fuel_leaf_room; [reflexivity | | apply Z.ltb_lt; exact Hroom].
    unfold inside. apply collidepoint_true. cbn [rect_x rect_y rect_w rect_h].
    split; apply py_int_from_zero; assumption.
Qed.

(** X16: [insert] never loses a particle that the tree holds and never
    copies one: after the call the tree holds every particle as often as
    before, and the new particle once more exactly when the call returned
    [True]; the node's boundary is as before. *)
Theorem insert_keeps_particles (h : heap) (t : QuadTree) (p r : ref) :
  boundary (snd (insert h t p)) = boundary t /\
  occ r (refs (snd (insert h t p))) =
    (occ r (refs t) + (if fst (insert h t p) then hit r p else 0))%nat /\
  (occ r (refs t) <= occ r (refs (snd (insert h t p))))%nat.
Proof.
  destruct (@insert_keeps h t p) as (Hb & Hc & _).
  split; [exact Hb |]. split; [apply Hc |]. rewrite (Hc r). lia.
Qed.

(** On a well placed tree a query returns every particle of the range as
    often as the tree holds it. *)
Lemma query_counts (h : heap) (t : QuadTree) (range : Rect) (r : ref) :
  well_placed h t ->
  occ r (query_acc h t range []) = if inside h range r then occ r (refs t) else 0%nat.
Proof.
  intros Hw. rewrite (@query_acc_refs h range t Hw). apply occ_filter.
Qed.

(** X17: the tree does not deduplicate.  When [insert] accepts the same
    particle twice, a query whose range passes it in its point test (on the
    coordinates cut to integers, as in [insert]) returns it twice more than
    before. *)
Theorem insert_twice_returned_twice (h : heap) (t : QuadTree) (p : ref) (range : Rect) :
  well_placed h t ->
  inside h range p = true ->
  fst (insert h t p) = true ->
  fst (insert h (snd (insert h t p)) p) = true ->
  occ p (query_acc h (snd (insert h (snd (insert h t p)) p)) range []) =
  (occ p (query_acc h t range []) + 2)%nat.
Proof.
  intros Hw Hin H1 H2.
  destruct (@insert_keeps h t p) as (_ & C1 & W1).
  destruct (@insert_keeps h (snd (insert h t p)) p) as (_ & C2 & W2).
  rewrite !query_counts, Hin by auto.
  rewrite (C2 p), (C1 p), H1, H2. unfold hit.
  destruct (Nat.eq_dec p p) as [_ | Hne]; [lia | contradiction].
Qed.

Lemma insert_twice_returned_twice_witness :
  occ 0%nat
      (query_acc row74
         (snd (insert row74 (snd (insert row74 (Leaf (mkRect 0 0 800 600) [] 5) 0%nat)) 0%nat))
         (mkRect 0 0 800 600) []) =
  (occ 0%nat (query_acc row74 (Leaf (mkRect 0 0 800 600) [] 5) (mkRect 0 0 800 600) []) + 2)%nat.
Proof.
  apply (@insert_twice_returned_twice row74 (Leaf (mkRect 0 0 800 600) [] 5) 0%nat
           (mkRect 0 0 800 600)).
  - simpl. split; constructor.
  - row74_side.
  - row74_eval. reflexivity.
  - repeat row74_eval. reflexivity.
Defined.

(** ** QuadTree.update *)

Lemma existsb_eqb_In (p : ref) (l : list ref) :
  existsb (Nat.eqb p) l = true <-> In p l.
Proof.
  rewrite existsb_exists. split.
  - intros (a & Ha & Heq). apply Nat.eqb_eq in Heq. subst. exact Ha.
  - intros Hin. exists p. split; [exact Hin | apply Nat.eqb_refl].
Qed.

Lemma remove_first_absent (p : ref) (l : list ref) :
  ~ In p l -> remove_first p l = l.
Proof.
  induction l as [| a l IH]; intros Hn; simpl; [reflexivity |].
  destruct (Nat.eqb_spec a p) as [-> | _].
  - exfalso. apply Hn. left; reflexivity.
  - f_equal. apply IH. intros Hin. apply Hn. right; exact Hin.
Qed.

Lemma occ_remove_first (r p : ref) (l : list ref) :
  In p l -> (occ r (remove_first p l) + hit r p)%nat = occ r l.
Proof.
  induction l as [| a l IH]; intros Hin; [destruct Hin |].
  simpl remove_first. destruct (Nat.eqb_spec a p) as [-> | Hne].
  - rewrite occ_cons. lia.
  - destruct Hin as [-> | Hin]; [contradiction |].
    rewrite !occ_cons, <- (IH Hin). lia.
Qed.

Lemma boundary_set_particles (t : QuadTree) (ps : list ref) :
  boundary (set_particles t ps) = boundary t.
Proof. destruct t; reflexivity. Qed.

Lemma set_particles_same (t : QuadTree) : set_particles t (particles t) = t.
Proof. destruct t; reflexivity. Qed.

(** X18: [QuadTree.update] never inserts.  When the node's boundary passes
    the particle in its point test, it returns nothing and changes nothing.
    Otherwise it takes the first occurrence of the particle out of the
    node's own list, leaves the children as they are, and returns [False]:
    the [insert] that it calls starts with the same test on the same
    coordinates, and rejects the particle. *)
Theorem QuadTree_update_never_inserts (h : heap) (t : QuadTree) (p : ref) :
  (inside h (boundary t) p = true -> QuadTree_update h t p = (None, t)) /\
  (inside h (boundary t) p = false ->
   QuadTree_update h t p = (Some false, set_particles t (remove_first p (particles t))) /\
   forall r, (occ r (particles (snd (QuadTree_update h t p))) + 
              (if existsb (Nat.eqb p) (particles t) then hit r p else 0))%nat =
             occ r (particles t)) /\
  fst (QuadTree_update h t p) <> Some true.
Proof.
  unfold QuadTree_update. fold (inside h (boundary t) p).
  destruct (inside h (boundary t) p) eqn:Hin.
  - split; [reflexivity |]. split; [discriminate |]. simpl. discriminate.
  - assert (Heq : (if existsb (Nat.eqb p) (particles t)
                    then set_particles t (remove_first p (particles t)) else t)
                  = set_particles t (remove_first p (particles t))).
    { destruct (existsb (Nat.eqb p) (particles t)) eqn:E; [reflexivity |].
      rewrite remove_first_absent, set_particles_same; [reflexivity |].
      intros Hp. apply existsb_eqb_In in Hp. congruence. }
    rewrite Heq.
    rewrite insert_outside by (rewrite boundary_set_particles; exact Hin).
    split; [discriminate |]. split; [| simpl; discriminate].
    intros _. split; [reflexivity |]. intros r. cbn [snd].
    replace (particles (set_particles t (remove_first p (particles t))))
      with (remove_first p (particles t)) by (destruct t; reflexivity).
    destruct (existsb (Nat.eqb p) (particles t)) eqn:E.
    + apply occ_remove_first, existsb_eqb_In, E.
    + rewrite remove_first_absent; [lia |].
      intros Hp. apply existsb_eqb_In in Hp. congruence.
Qed.

(** ** The capacity of the nodes *)

Section CallsCap.

Variable c : Z.
Variable ins : QuadTree -> ref -> option (bool * QuadTree).

Hypothesis ins_capped :
  forall t p b t', ins t p = Some (b, t') -> capped c t -> capped c t'.

Lemma insert_children_capped (k : children) (p : ref) (b : bool) (k' : children) :
  insert_children ins k p = Some (b, k') -> kids_capped c k -> kids_capped c k'.
Proof.
  destruct k as [[[ne nw] se] sw]. unfold insert_children.
  destruct (ins ne p) as [[b1 ne'] |] eqn:E1; [| discriminate].
  pose proof (ins_capped E1) as W1. cbn [bind].
  destruct b1; [intros [= <- <-]; simpl; tauto |].
  destruct (ins nw p) as [[b2 nw'] |] eqn:E2; [| discriminate].
  pose proof (ins_capped E2) as W2. cbn [bind].
  destruct b2; [intros [= <- <-]; simpl; tauto |].
  destruct (ins se p) as [[b3 se'] |] eqn:E3; [| discriminate].
  pose proof (ins_capped E3) as W3. cbn [bind].
  destruct b3; [intros [= <- <-]; simpl; tauto |].
  destruct (ins sw p) as [[b4 sw'] |] eqn:E4; [| discriminate].
  pose proof (ins_capped E4) as W4. cbn [bind].
  intros [= <- <-]; simpl; tauto.
Qed.

Lemma redistribute_capped (existing : list ref) :
  forall k kept k' kept',
    redistribute ins existing k kept = Some (k', kept') ->
    kids_capped c k -> kids_capped c k'.
Proof.
  induction existing as [| p rest IH]; intros k kept k' kept'; cbn [redistribute].
  - intros [= <- <-]. tauto.
  - destruct (insert_children ins k p) as [[b k1] |] eqn:E; [| discriminate].
    cbn [bind]. intros Hrest Hk.
    apply (IH _ _ _ _ Hrest). apply (insert_children_capped _ _ E Hk).
Qed.

End CallsCap.

Lemma insert_fuel_capped (h : heap) (c : Z) (n : nat) :
  (0 <= c)%Z ->
  forall t p b t', insert_fuel n h t p = Some (b, t') -> capped c t -> capped c t'.
Proof.
  intros Hc. induction n as [| n IH]; intros t p b t'; [discriminate |].
  destruct (inside h (boundary t) p) eqn:Hin.
  2:{ rewrite insert_fuel_outside by exact Hin. intros [= <- <-]. tauto. }
  destruct t as [bd ps cap | bd ps cap ne nw se sw]; cbn [boundary] in Hin.
  - destruct (Z.of_nat (length ps) <? cap)%Z eqn:Hroom.
    { rewrite insert_fuel_leaf_room by assumption. intros [= <- <-].
      simpl. intros [-> Hlen]. split; [reflexivity |].
      apply Z.ltb_lt in Hroom. rewrite length_app. simpl. lia. }
    rewrite insert_fuel_leaf_full by assumption.
    destruct (redistribute (insert_fuel n h) ps (subdivide bd cap) [])
      as [[k kept] |] eqn:Ered; [| discriminate].
    cbn [bind].
    destruct (insert_children (insert_fuel n h) k p)
      as [[res [[[ne nw] se] sw]] |] eqn:Ech; [| discriminate].
    cbn [bind]. intros [= <- <-]. simpl. intros [-> _].
    split; [reflexivity |].
    apply (@insert_children_capped c _ IH _ _ _ _ Ech).
    apply (@redistribute_capped c _ IH _ _ _ _ _ Ered).
    simpl. repeat split; simpl; lia.
  - rewrite insert_fuel_quad by assumption.
    destruct (insert_children (insert_fuel n h) (ne, nw, se, sw) p)
      as [[res [[[ne' nw'] se'] sw']] |] eqn:Ech; [| discriminate].
    cbn [bind]. intros [= <- <-]. simpl. intros [-> Hk].
    split; [reflexivity |].
    apply (@insert_children_capped c _ IH _ _ _ _ Ech). exact Hk.
Qed.

Lemma insert_capped (h : heap) (c : Z) (t : QuadTree) (p : ref) :
  (0 <= c)%Z -> capped c t -> capped c (snd (insert h t p)).
Proof.
  intros Hc Ht.
  apply (@insert_fuel_capped h c (depth_bound t) Hc t p (fst (insert h t p))); [| exact Ht].
  rewrite insert_as_fuel. destruct (insert h t p); reflexivity.
Qed.

(** X19: the capacity invariant.  In the tree that [set_up_quad_tree]
    builds, whatever the particles and the arena, every node has capacity 5
    and every node that is not divided holds at most 5 particles; and
    [insert] keeps that invariant for any capacity that is not negative. *)
Theorem build_quad_tree_capped (h : heap) (width height : Z) (ps : list ref) :
  capped 5 (build_quad_tree h width height ps) /\
  (forall c t p, (0 <= c)%Z -> capped c t -> capped c (snd (insert h t p))).
Proof.
  split; [| intros c t p; apply insert_capped].
  rewrite build_quad_tree_insert_all.
  assert (H0 : capped 5 (QuadTree_init (mkRect 0 0 width height) 5))
    by (simpl; split; [reflexivity | lia]).
  revert H0. generalize (QuadTree_init (mkRect 0 0 width height) 5).
  induction ps as [| p ps IH]; intros t Ht; [exact Ht |].
  apply IH. apply insert_capped; [lia | exact Ht].
Qed.

(** ** subdivide on any size *)

(** The two halves of a span are disjoint and inside the span. *)
Lemma in_span_halves_inside (a w p : Z) :
  (in_span a (w / 2) p = true -> in_span a w p = true) /\
  (in_span (a + w / 2) (w / 2) p = true -> in_span a w p = true) /\
  in_span a (w / 2) p && in_span (a + w / 2) (w / 2) p = false.
Proof.
  assert (Hhalf : (2 * (w / 2) <= w)%Z) by (apply Z.mul_div_le; lia).
  revert Hhalf. generalize (w / 2)%Z. intros hw Hhalf.
  unfold in_span. split; [| split].
  - rewrite !andb_true_iff, !Z.leb_le, !Z.ltb_lt. lia.
  - rewrite !andb_true_iff, !Z.leb_le, !Z.ltb_lt. lia.
  - case_cmpZ; simpl; first [reflexivity | lia].
Qed.

(** X20: whatever the size of a node, the four rectangles of [subdivide]
    do not overlap and lie inside the node's rectangle: a point is in at most
    one of them, and only if it is in the node. *)
Theorem subdivide_children_disjoint (b : Rect) (px py : R) :
  let '(ne, nw, se, sw) := subdivide_rects b in
  (count (collidepoint ne px py) + count (collidepoint nw px py) +
   count (collidepoint se px py) + count (collidepoint sw px py) <=
   count (collidepoint b px py))%nat.
Proof.
  unfold subdivide_rects.
  rewrite !collidepoint_spans. cbn [rect_x rect_y rect_w rect_h].
  destruct (in_span_halves_inside (rect_x b) (rect_w b) (py_int px)) as (Hl & Hr & Hx).
  destruct (in_span_halves_inside (rect_y b) (rect_h b) (py_int py)) as (Ht & Hb & Hy).
  destruct (in_span (rect_x b) (rect_w b / 2) (py_int px)),
    (in_span (rect_x b + rect_w b / 2) (rect_w b / 2) (py_int px)),
    (in_span (rect_y b) (rect_h b / 2) (py_int py)),
    (in_span (rect_y b + rect_h b / 2) (rect_h b / 2) (py_int py));
    simpl in *; try discriminate;
    try rewrite (Hl eq_refl); try rewrite (Hr eq_refl);
    try rewrite (Ht eq_refl); try rewrite (Hb eq_refl); simpl; lia.
Qed.

(** ** The loops of the solver *)

Section Loops.

Variable f : Particle -> Particle.

(** What [f] keeps, the loop keeps, for every particle of the heap. *)
Lemma for_particles_invariant (I : Particle -> Prop) (ps : list ref) (h : heap) (r : ref) :
  (forall p, I p -> I (f p)) -> I (h r) -> I (for_particles f ps h r).
Proof.
  intros HI. revert h. induction ps as [| a ps IH]; intros h Hr; [exact Hr |].
  change (for_particles f (a :: ps) h) with (for_particles f ps (upd h a (f (h a)))).
  apply IH. unfold upd. destruct (Nat.eqb_spec r a) as [-> | _]; [apply HI |]; exact Hr.
Qed.

(** The loop runs [f] once on each particle of a list without repeats. *)
Lemma for_particles_once (ps : list ref) (h : heap) (r : ref) :
  NoDup ps -> In r ps -> for_particles f ps h r = f (h r).
Proof.
  revert h. induction ps as [| a ps IH]; intros h Hnd Hin; [destruct Hin |].
  change (for_particles f (a :: ps) h) with (for_particles f ps (upd h a (f (h a)))).
  inversion Hnd as [| a' ps' Ha Hps]; subst.
  destruct Hin as [-> | Hin].
  - rewrite for_particles_other by exact Ha. unfold upd. rewrite Nat.eqb_refl. reflexivity.
  - rewrite (IH _ Hps Hin). unfold upd.
    destruct (Nat.eqb_spec r a) as [-> | _]; [contradiction | reflexivity].
Qed.

End Loops.

(** X21: the two loops of a substep that need no tree.  On a list of
    distinct particles, [apply_gravity] followed by [update_particles] runs
    [accelerate(0, gravity * dt)] and [update(dt)] once on each particle of
    the list, and leaves every other particle of the heap as it is. *)
Theorem gravity_then_update (cs : CollisionSystem) (dt : R) (h : heap) (r : ref) :
  NoDup (cs_particles cs) ->
  (In r (cs_particles cs) ->
   update_particles cs dt (apply_gravity cs dt h) r = gravity_substep cs dt (h r)) /\
  (~ In r (cs_particles cs) ->
   update_particles cs dt (apply_gravity cs dt h) r = h r).
Proof.
  intros Hnd. unfold update_particles, apply_gravity, gravity_substep. split; intros Hr.
  - rewrite !for_particles_once by assumption. reflexivity.
  - rewrite !for_particles_other by assumption. reflexivity.
Qed.

Lemma gravity_then_update_witness :
  (In 1%nat (cs_particles arena_two) ->
   update_particles arena_two 0.02 (apply_gravity arena_two 0.02 two_at_walls) 1%nat =
     gravity_substep arena_two 0.02 (two_at_walls 1%nat)) /\
  (~ In 1%nat (cs_particles arena_two) ->
   update_particles arena_two 0.02 (apply_gravity arena_two 0.02 two_at_walls) 1%nat =
     two_at_walls 1%nat).
Proof.
  apply (@gravity_then_update arena_two 0.02 two_at_walls 1%nat).
  simpl. repeat (constructor; [simpl; intuition discriminate |]). constructor.
Defined.

(** ** check_collisions *)

Lemma same_but_position_refl (p : Particle) : same_but_position p p.
Proof. unfold same_but_position. tauto. Qed.

Lemma same_but_position_trans (p q r : Particle) :
  same_but_position p q -> same_but_position q r -> same_but_position p r.
Proof.
  unfold same_but_position.
  intros (A1 & A2 & A3 & A4 & A5) (B1 & B2 & B3 & B4 & B5).
  repeat split; congruence.
Qed.

Lemma resolveCollision_keeps (p1 p2 : Particle) :
  same_but_position p1 (fst (resolveCollision p1 p2)) /\
  same_but_position p2 (snd (resolveCollision p1 p2)).
Proof.
  destruct (overlapping_dec p1 p2) as [Hc | Hc].
  - rewrite (resolveCollision_hit Hc). unfold same_but_position; simpl. tauto.
  - rewrite (resolveCollision_miss Hc). split; apply same_but_position_refl.
Qed.

Lemma resolve_keeps (h : heap) (a b r : ref) :
  same_but_position (h r) (resolve h a b r).
Proof.
  unfold resolve. destruct (resolveCollision_keeps (h a) (h b)) as [Ha Hb].
  destruct (resolveCollision (h a) (h b)) as [p1 p2]. simpl in Ha, Hb.
  unfold upd. destruct (Nat.eqb_spec r b) as [-> | _]; [exact Hb |].
  destruct (Nat.eqb_spec r a) as [-> | _]; [exact Ha | apply same_but_position_refl].
Qed.

Lemma check_particle_keeps (t : QuadTree) (h : heap) (p r : ref) :
  same_but_position (h r) (check_particle t h p r).
Proof.
  unfold check_particle. generalize (query_acc h t (query_box (h p)) []). intros found.
  assert (Hgen : forall h', same_but_position (h r) (h' r) ->
            same_but_position (h r)
              (fold_left (fun h0 other =>
                 if negb (Nat.eqb other p) then resolve h0 p other else h0) found h' r)).
  { induction found as [| o found IH]; intros h' Hh'; [exact Hh' |].
    simpl. apply IH. destruct (negb (Nat.eqb o p)); [| exact Hh'].
    eapply same_but_position_trans; [exact Hh' | apply resolve_keeps]. }
  apply Hgen, same_but_position_refl.
Qed.

Lemma check_collisions_keeps (cs : CollisionSystem) (h : heap) (r : ref) :
  same_but_position (h r) (check_collisions cs h r).
Proof.
  unfold check_collisions. destruct (cs_quad_tree cs) as [t |];
    [| apply same_but_position_refl].
  generalize (cs_particles cs). intros ps.
  assert (Hgen : forall h', same_but_position (h r) (h' r) ->
            same_but_position (h r) (fold_left (check_particle t) ps h' r)).
  { induction ps as [| p ps IH]; intros h' Hh'; [exact Hh' |].
    simpl. apply IH.
    eapply same_but_position_trans; [exact Hh' | apply check_particle_keeps]. }
  apply Hgen, same_but_position_refl.
Qed.

(** X22: [check_collisions] corrects positions only: for every particle of
    the heap, the previous position, the accumulated acceleration, the
    radius, the colour and the mass are as before; without a tree it
    changes nothing. *)
Theorem check_collisions_frame (cs : CollisionSystem) (h : heap) (r : ref) :
  (last_pos (check_collisions cs h r) = last_pos (h r) /\
   accel (check_collisions cs h r) = accel (h r) /\
   radius (check_collisions cs h r) = radius (h r) /\
   color (check_collisions cs h r) = color (h r) /\
   mass (check_collisions cs h r) = mass (h r)) /\
  (cs_quad_tree cs = None -> check_collisions cs h = h).
Proof.
  split; [apply check_collisions_keeps |].
  intros Hnone. unfold check_collisions. rewrite Hnone. reflexivity.
Qed.

(** ** A whole tick *)

Lemma for_particles_radius (f : Particle -> Particle) (ps : list ref) (h : heap) (r : ref) :
  (forall p, radius (f p) = radius p) ->
  radius (for_particles f ps h r) = radius (h r).
Proof.
  intros Hf.
  apply (@for_particles_invariant f (fun p => radius p = radius (h r)));
    [intros p Hp; rewrite Hf; exact Hp | reflexivity].
Qed.

Lemma substep_radius (cs : CollisionSystem) (sub_dt : R) (h : heap) (r : ref) :
  radius (substep cs sub_dt h r) = radius (h r).
Proof.
  unfold substep, wall_collisions, update_particles, apply_gravity.
  rewrite for_particles_radius by (intros p; apply wall_collide_radius).
  rewrite for_particles_radius by reflexivity.
  destruct (check_collisions_keeps cs
              (for_particles (fun particle => accelerate particle 0 (cs_gravity cs * sub_dt))
                             (cs_particles cs) h) r) as (_ & _ & -> & _).
  apply for_particles_radius. reflexivity.
Qed.

Lemma wall_collisions_inside (cs : CollisionSystem) (h : heap) (r : ref) :
  In r (cs_particles cs) ->
  2 * radius (h r) <= IZR (cs_width cs) ->
  2 * radius (h r) <= IZR (cs_height cs) ->
  inside_walls (cs_width cs) (cs_height cs) (wall_collisions cs h r).
Proof.
  intros Hin Hw Hh. unfold wall_collisions.
  destruct (@for_particles_visited (wall_collide (cs_width cs) (cs_height cs))
              (fun p => radius p = radius (h r)) (cs_particles cs) h r)
    as (p0 & Hp0 & ->); [| exact Hin | reflexivity |].
  - intros p Hp. rewrite wall_collide_radius. exact Hp.
  - apply wall_collide_inside; rewrite Hp0; assumption.
Qed.

Lemma substeps_inside (cs : CollisionSystem) (sub_dt : R) (r : ref) (n : nat) :
  In r (cs_particles cs) ->
  forall h,
    2 * radius (h r) <= IZR (cs_width cs) ->
    2 * radius (h r) <= IZR (cs_height cs) ->
    radius (substeps n cs sub_dt h r) = radius (h r) /\
    ((0 < n)%nat ->
     inside_walls (cs_width cs) (cs_height cs) (substeps n cs sub_dt h r)).
Proof.
  intros Hin. induction n as [| n IH]; intros h Hw Hh.
  - split; [reflexivity | lia].
  - cbn [substeps].
    assert (Hr : radius (substep cs sub_dt h r) = radius (h r)) by apply substep_radius.
    destruct (IH (substep cs sub_dt h)) as [IHr IHin]; [rewrite Hr; exact Hw | rewrite Hr; exact Hh |].
    split; [rewrite IHr; exact Hr |]. intros _.
    destruct n as [| n']; [| apply IHin; lia].
    simpl. unfold substep. apply wall_collisions_inside; [exact Hin | |].
    + unfold update_particles, apply_gravity.
      rewrite for_particles_radius by reflexivity.
      destruct (check_collisions_keeps cs
                  (for_particles (fun particle => accelerate particle 0 (cs_gravity cs * sub_dt))
                                 (cs_particles cs) h) r) as (_ & _ & -> & _).
      rewrite for_particles_radius by reflexivity. exact Hw.
    + unfold update_particles, apply_gravity.
      rewrite for_particles_radius by reflexivity.
      destruct (check_collisions_keeps cs
                  (for_particles (fun particle => accelerate particle 0 (cs_gravity cs * sub_dt))
                                 (cs_particles cs) h) r) as (_ & _ & -> & _).
      rewrite for_particles_radius by reflexivity. exact Hh.
Qed.

(** X23: a tick ends inside the walls, in real arithmetic.  With a
    positive number of substeps the division of [CollisionSystem.update(dt)]
    does not fail, all the substeps run, and every particle of the solver's
    list whose diameter fits the arena is left with its radius as before and
    its edges inside the four walls, whatever [dt], the gravity and the
    collisions on the way.  (This is a statement about the reals: on floats
    a [dt] so large that a position overflows makes the call raise, and a
    bound can be missed by a rounding.) *)
Theorem tick_ends_inside_walls (cs : CollisionSystem) (dt : R) (h : heap) (r : ref) :
  (0 < cs_iterations cs)%Z ->
  In r (cs_particles cs) ->
  2 * radius (h r) <= IZR (cs_width cs) ->
  2 * radius (h r) <= IZR (cs_height cs) ->
  exists h',
    snd (CollisionSystem_update cs dt h) = Some h' /\
    radius (h' r) = radius (h r) /\
    inside_walls (cs_width cs) (cs_height cs) (h' r).
Proof.
  intros Hit Hin Hw Hh. unfold CollisionSystem_update.
  change (cs_iterations (set_up_quad_tree h cs)) with (cs_iterations cs).
  replace (cs_iterations cs =? 0)%Z with false by (symmetry; apply Z.eqb_neq; lia).
  eexists. split; [reflexivity |].
  destruct (@substeps_inside (set_up_quad_tree h cs) (dt / IZR (cs_iterations cs)) r
              (Z.to_nat (cs_iterations cs)) Hin h Hw Hh) as [Hr Hins].
  split; [exact Hr |]. apply Hins. lia.
Qed.

Lemma tick_ends_inside_walls_witness :
  exists h',
    snd (CollisionSystem_update arena_two 0.1 two_at_walls) = Some h' /\
    radius (h' 1%nat) = radius (two_at_walls 1%nat) /\
    inside_walls (cs_width arena_two) (cs_height arena_two) (h' 1%nat).
Proof.
  apply (@tick_ends_inside_walls arena_two 0.1 two_at_walls 1%nat).
  - simpl. lia.
  - simpl. right; left; reflexivity.
  - simpl. unfold WIDTH. lra.
  - simpl. unfold HEIGHT. lra.
Defined.

(** ** check_collisions keeps the centroid *)

Section Sums.

(** A coordinate of a particle: [x] or [y]. *)
Variable coord : Particle -> R.

Lemma sum_of_upd_other (l : list ref) (h : heap) (a : ref) (p : Particle) :
  ~ In a l -> sum_of coord l (upd h a p) = sum_of coord l h.
Proof.
  induction l as [| r l IH]; intros Ha; simpl; [reflexivity |].
  rewrite IH by (intros Hin; apply Ha; right; exact Hin).
  unfold upd. destruct (Nat.eqb_spec r a) as [-> | _]; [| reflexivity].
  exfalso. apply Ha. left; reflexivity.
Qed.

Lemma sum_of_upd (l : list ref) (h : heap) (a : ref) (p : Particle) :
  NoDup l -> In a l ->
  sum_of coord l (upd h a p) = sum_of coord l h - coord (h a) + coord p.
Proof.
  induction l as [| r l IH]; intros Hnd Ha; [destruct Ha |].
  inversion Hnd as [| r' l' Hr Hl]; subst. simpl.
  destruct Ha as [-> | Ha].
  - rewrite sum_of_upd_other by exact Hr. unfold upd. rewrite Nat.eqb_refl. ring.
  - rewrite (IH Hl Ha). unfold upd.
    destruct (Nat.eqb_spec r a) as [-> | _]; [contradiction | ring].
Qed.

(** [resolveCollision] keeps the sum of the coordinate of its pair. *)
Hypothesis coord_kept :
  forall p1 p2,
    coord (fst (resolveCollision p1 p2)) + coord (snd (resolveCollision p1 p2)) =
    coord p1 + coord p2.

Lemma sum_of_resolve (l : list ref) (h : heap) (a b : ref) :
  NoDup l -> In a l -> In b l -> a <> b ->
  sum_of coord l (resolve h a b) = sum_of coord l h.
Proof.
  intros Hnd Ha Hb Hab. unfold resolve.
  pose proof (coord_kept (h a) (h b)) as Hk.
  destruct (resolveCollision (h a) (h b)) as [p1 p2]. simpl in Hk.
  rewrite (@sum_of_upd l (upd h a p1) b p2 Hnd Hb), (@sum_of_upd l h a p1 Hnd Ha).
  unfold upd at 1. destruct (Nat.eqb_spec b a) as [-> | _]; [contradiction |].
  lra.
Qed.

Lemma sum_of_check_particle (l : list ref) (t : QuadTree) (h : heap) (p : ref) :
  NoDup l -> In p l -> (forall r, In r (refs t) -> In r l) ->
  sum_of coord l (check_particle t h p) = sum_of coord l h.
Proof.
  intros Hnd Hp Ht. unfold check_particle.
  assert (Hfound : forall o, In o (query_acc h t (query_box (h p)) []) -> In o l)
    by (intros o Ho; apply Ht; eapply query_acc_subset; exact Ho).
  revert Hfound. generalize (query_acc h t (query_box (h p)) []). intros found.
  revert h.
  induction found as [| o found IH]; intros h' Hfound; [reflexivity |].
  simpl. rewrite IH by (intros o' Ho'; apply Hfound; right; exact Ho').
  destruct (Nat.eqb_spec o p) as [-> | Hne]; simpl; [reflexivity |].
  apply sum_of_resolve; [exact Hnd | exact Hp | apply Hfound; left; reflexivity | congruence].
Qed.

Lemma sum_of_check_collisions (l : list ref) (cs : CollisionSystem) (h : heap) :
  NoDup l ->
  (forall r, In r (cs_particles cs) -> In r l) ->
  (forall t r, cs_quad_tree cs = Some t -> In r (refs t) -> In r l) ->
  sum_of coord l (check_collisions cs h) = sum_of coord l h.
Proof.
  intros Hnd Hps Ht. unfold check_collisions.
  destruct (cs_quad_tree cs) as [t |]; [| reflexivity].
  specialize (Ht t). revert h Hps. generalize (cs_particles cs). intros ps.
  induction ps as [| p ps IH]; intros h Hps; [reflexivity |].
  simpl. rewrite IH by (intros r Hr; apply Hps; right; exact Hr).
  apply sum_of_check_particle; [exact Hnd | apply Hps; left; reflexivity |].
  intros r Hr. apply Ht; [reflexivity | exact Hr].
Qed.

End Sums.

Lemma resolveCollision_midpoint (p1 p2 : Particle) :
  x (fst (resolveCollision p1 p2)) + x (snd (resolveCollision p1 p2)) = x p1 + x p2 /\
  y (fst (resolveCollision p1 p2)) + y (snd (resolveCollision p1 p2)) = y p1 + y p2.
Proof.
  destruct (overlapping_dec p1 p2) as [Hc | Hc].
  - rewrite (resolveCollision_hit Hc). simpl. split; lra.
  - rewrite (resolveCollision_miss Hc). simpl. split; reflexivity.
Qed.

Lemma build_quad_tree_refs (h : heap) (width height : Z) (ps : list ref) (r : ref) :
  In r (refs (build_quad_tree h width height ps)) -> In r ps.
Proof.
  intros Hr. apply occ_In in Hr. apply occ_In.
  rewrite build_quad_tree_insert_all in Hr.
  destruct (@insert_all_keeps h ps _ (QuadTree_init_well_placed h (mkRect 0 0 width height) 5))
    as (_ & _ & Hle).
  specialize (Hle r). simpl in Hle. lia.
Qed.

(** X24: [check_collisions] keeps the centroid.  On the tree that
    [set_up_quad_tree] built of the solver's list of distinct particles, at
    any earlier positions, the corrections of [check_collisions] leave the
    sum of the x and the sum of the y of the particles of the list as they
    were: what one particle of a pair is moved, the other is moved back. *)
Theorem check_collisions_keeps_centroid (cs : CollisionSystem) (h0 h : heap) :
  NoDup (cs_particles cs) ->
  sum_x (cs_particles cs) (check_collisions (set_up_quad_tree h0 cs) h) =
    sum_x (cs_particles cs) h /\
  sum_y (cs_particles cs) (check_collisions (set_up_quad_tree h0 cs) h) =
    sum_y (cs_particles cs) h.
Proof.
  intros Hnd.
  assert (Ht : forall t r, cs_quad_tree (set_up_quad_tree h0 cs) = Some t ->
                           In r (refs t) -> In r (cs_particles cs)).
  { intros t r [= <-]. apply build_quad_tree_refs. }
  unfold sum_x, sum_y. split.
  - apply (@sum_of_check_collisions x (fun p1 p2 => proj1 (resolveCollision_midpoint p1 p2))
             (cs_particles cs) (set_up_quad_tree h0 cs) h Hnd); [tauto | exact Ht].
  - apply (@sum_of_check_collisions y (fun p1 p2 => proj2 (resolveCollision_midpoint p1 p2))
             (cs_particles cs) (set_up_quad_tree h0 cs) h Hnd); [tauto | exact Ht].
Qed.

Lemma check_collisions_keeps_centroid_witness :
  sum_x (cs_particles arena_two) (check_collisions (set_up_quad_tree two_at_walls arena_two) two_at_walls) =
    sum_x (cs_particles arena_two) two_at_walls /\
  sum_y (cs_particles arena_two) (check_collisions (set_up_quad_tree two_at_walls arena_two) two_at_walls) =
    sum_y (cs_particles arena_two) two_at_walls.
Proof.
  apply (@check_collisions_keeps_centroid arena_two two_at_walls two_at_walls).
  simpl. repeat (constructor; [simpl; intuition discriminate |]). constructor.
Defined.

(** ** create_particle *)

(** X25: a spawned particle.  Whatever the colour drawn, [create_particle]
    gives a particle at [pos] with radius 6 and no accumulated acceleration;
    its velocity is the drawn one times [dt], so with draws from
    [uniform(-0.5, 0.5)] and the [dt = 1.0] of the main loop no component
    exceeds 0.5. *)
Theorem create_particle_spawn (pos : R * R) (dt : R) (c : Z * Z * Z) (init_vx init_vy : R) :
  -0.5 <= init_vx <= 0.5 ->
  -0.5 <= init_vy <= 0.5 ->
  let particle := create_particle pos dt c init_vx init_vy in
  (x particle, y particle) = pos /\
  radius particle = 6 /\ accel particle = (0, 0) /\ color particle = c /\
  getVelocity particle = (init_vx * dt, init_vy * dt) /\
  (dt = 1 ->
   Rabs (fst (getVelocity particle)) <= 0.5 /\ Rabs (snd (getVelocity particle)) <= 0.5).
Proof.
  intros Hx Hy. unfold create_particle, getVelocity, setVelocity; simpl.
  repeat split.
  - destruct pos; reflexivity.
  - apply pair_eq; lra.
  - apply pair_eq; ring.
  - subst dt. apply Rabs_le. lra.
  - subst dt. apply Rabs_le. lra.
Qed.

Lemma create_particle_spawn_witness :
  let particle := create_particle (400, 300) 1 (100, 200, 255)%Z 0.25 (-0.5) in
  (x particle, y particle) = (400, 300) /\
  radius particle = 6 /\ accel particle = (0, 0) /\ color particle = (100, 200, 255)%Z /\
  getVelocity particle = (0.25 * 1, -0.5 * 1) /\
  (1 = 1 ->
   Rabs (fst (getVelocity particle)) <= 0.5 /\ Rabs (snd (getVelocity particle)) <= 0.5).
Proof.
  apply (@create_particle_spawn (400, 300) 1 (100, 200, 255)%Z 0.25 (-0.5)); lra.
Defined.
